(** * Funding CRM: the calendar-to-sheet sync engine

    A shallow embedding of the sync handler of the funding CRM in its
    latest revision (the one with the exclusion policy, the three notes
    sources and the deduplicating write), with the helpers
    [shouldSkipEmail], [getNameFromEmail], [analyzeWithAI],
    [getMeetingNotes], [getCalendarEvents], [getSheetContacts],
    [updateSheetContacts] and [handler], together with the properties
    its specification states about it.  The insight extractor and the
    event filter of the revision kept in [pages/api/sync.js] are embedded
    too, in the module [Earlier].

    Conventions of the embedding.
    - JavaScript strings are [string]; the model is exact on ASCII text
      (letter case, white space and word characters are the ASCII ones).
    - A missing ([undefined]) string member and the empty string are both
      falsy and are both rendered as [""]: every use in the source goes
      through [x || d], [!x], [filter(Boolean)] or [new Date(x)], which
      do not tell them apart.
    - External collaborators (calendar, sheet, mailbox, transcript
      provider, language model, clock, [Date] parsing) are fields of a
      record of oracles; within one run an oracle answers as a function of
      its arguments.
    - Exceptions are the [Throw] results of a small state-and-error monad
      over the [World] (the sheet, the sync marker, the log of prompts
      sent to the language model). *)

From Stdlib Require Import Bool Arith ZArith Lia List String Ascii.
Import ListNotations.
Open Scope string_scope.
Open Scope list_scope.

(** ** JavaScript string primitives *)

Module JS.

Definition is_upper (c : ascii) : bool :=
  let n := nat_of_ascii c in ((65 <=? n) && (n <=? 90))%nat.

Definition is_lower (c : ascii) : bool :=
  let n := nat_of_ascii c in ((97 <=? n) && (n <=? 122))%nat.

Definition is_digit (c : ascii) : bool :=
  let n := nat_of_ascii c in ((48 <=? n) && (n <=? 57))%nat.

Definition lower_char (c : ascii) : ascii :=
  if is_upper c then ascii_of_nat (nat_of_ascii c + 32) else c.

Definition upper_char (c : ascii) : ascii :=
  if is_lower c then ascii_of_nat (nat_of_ascii c - 32) else c.

(** [s.toLowerCase()] *)
Fixpoint toLowerCase (s : string) : string :=
  match s with
  | EmptyString => EmptyString
  | String c r => String (lower_char c) (toLowerCase r)
  end.

(** [s.includes(sub)] *)
Fixpoint includes (s sub : string) : bool :=
  if prefix sub s then true
  else match s with
       | EmptyString => false
       | String _ r => includes r sub
       end.

(** JavaScript truthiness of a string: only [""] is falsy. *)
Definition truthy (s : string) : bool :=
  match s with EmptyString => false | _ => true end.

(** [a || b] on strings. *)
Definition or_else (a b : string) : string := if truthy a then a else b.

(** White space as [String.prototype.trim] and the regex class [\s] see
    it: tab, line feed, vertical tab, form feed, carriage return, space. *)
Definition is_space (c : ascii) : bool :=
  let n := nat_of_ascii c in
  (((9 <=? n) && (n <=? 13)) || (n =? 32))%nat.

Fixpoint trimStart (s : string) : string :=
  match s with
  | EmptyString => EmptyString
  | String c r => if is_space c then trimStart r else s
  end.

(** Removes the trailing white space; the result is [""] when [s] is all
    white space. *)
Fixpoint trimEnd (s : string) : string :=
  match s with
  | EmptyString => EmptyString
  | String c r =>
      match trimEnd r with
      | EmptyString => if is_space c then EmptyString else String c EmptyString
      | r' => String c r'
      end
  end.

(** [s.trim()] *)
Definition trim (s : string) : string := trimEnd (trimStart s).

(** [s.substring(0, n)] *)
Definition take (n : nat) (s : string) : string := substring 0 n s.

(** [s.split(c)] for a one-character separator. *)
Fixpoint split_on (c : ascii) (s : string) : list string :=
  match s with
  | EmptyString => [EmptyString]
  | String d r =>
      if Ascii.eqb d c then EmptyString :: split_on c r
      else match split_on c r with
           | [] => [String d EmptyString]
           | w :: ws => String d w :: ws
           end
  end.

(** [l.join(sep)] *)
Fixpoint join (sep : string) (l : list string) : string :=
  match l with
  | [] => EmptyString
  | [w] => w
  | w :: ws => (w ++ sep ++ join sep ws)%string
  end.

(** [s.replace(/[._-]/g, ' ')] *)
Fixpoint replace_punct (s : string) : string :=
  match s with
  | EmptyString => EmptyString
  | String c r =>
      String (if Ascii.eqb c "." || Ascii.eqb c "_" || Ascii.eqb c "-"
              then " "%char else c) (replace_punct r)
  end.

(** [w.charAt(0).toUpperCase() + w.slice(1)] *)
Definition capitalize (w : string) : string :=
  match w with
  | EmptyString => EmptyString
  | String c r => String (upper_char c) r
  end.

End JS.

(** ** Results and exceptions *)

(** The outcome of a call that may throw [new Error(msg)]. *)
Inductive Res (A : Type) : Type :=
| Ok (a : A)
| Throw (msg : string).
Arguments Ok {A} a.
Arguments Throw {A} msg.

(** ** The process environment *)

Record Env : Type := mkEnv {
  OPENAI_API_KEY : string;
  GEMINI_API_KEY : string;
  FIREFLIES_API_KEY : string;
  GOOGLE_SERVICE_EMAIL : string;
  CRON_SECRET : string
}.

(** ** Exclusion policy and names *)

Definition skipDomains : list string :=
  ["@noreply.com"; "@notifications."; "@calendly.com"; "@zoom.us";
   "@teams.microsoft.com"; "@meet.google.com"].

(** [emailLower === process.env.GOOGLE_SERVICE_EMAIL?.toLowerCase()]; an
    unset variable compares unequal to every string, and the comparison
    is only reached with a non-empty [emailLower]. *)
Definition is_service_email (env : Env) (emailLower : string) : bool :=
  JS.truthy (GOOGLE_SERVICE_EMAIL env) &&
  String.eqb emailLower (JS.toLowerCase (GOOGLE_SERVICE_EMAIL env)).

Definition shouldSkipEmail (env : Env) (email : string) : bool :=
  if negb (JS.truthy email) then true
  else
    let emailLower := JS.toLowerCase email in
    if JS.includes emailLower "@viehq.com"
       || String.eqb emailLower "fred@fireflies.ai"
       || is_service_email env emailLower
    then true
    else if existsb (fun domain => JS.includes emailLower domain) skipDomains
    then true
    else false.

Definition getNameFromEmail (email : string) : string :=
  if negb (JS.truthy email) || negb (JS.includes email "@") then "Unknown Name"
  else
    let localPart := hd EmptyString (JS.split_on "@" email) in
    JS.join " " (map JS.capitalize (JS.split_on " " (JS.replace_punct localPart))).

(** ** JSON values and [JSON.parse] *)

Module Json.

(** A parsed JSON text, which is also the model of the JavaScript values
    the handler stores in a contact's [status], [nextStep] and [notes].
    A number keeps its literal; [rounds_to_zero] tells whether the Number
    it is read as is zero. *)
#[local] Set Warnings "-register-all".
Inductive json : Type :=
| JNull
| JBool (b : bool)
| JNum (lit : string)
| JStr (s : string)
| JArr (items : list json)
| JObj (members : list (string * json)).

Definition dquote : ascii := "034"%char.
Definition backslash : ascii := "092"%char.

(** White space of the JSON grammar: space, tab, line feed, carriage return. *)
Definition is_json_ws (c : ascii) : bool :=
  let n := nat_of_ascii c in
  ((n =? 32) || (n =? 9) || (n =? 10) || (n =? 13))%nat.

Fixpoint skip_ws (s : string) : string :=
  match s with
  | String c r => if is_json_ws c then skip_ws r else s
  | EmptyString => EmptyString
  end.

Definition hex_val (c : ascii) : option nat :=
  let n := nat_of_ascii c in
  if ((48 <=? n) && (n <=? 57))%nat then Some (n - 48)
  else if ((97 <=? n) && (n <=? 102))%nat then Some (n - 87)
  else if ((65 <=? n) && (n <=? 70))%nat then Some (n - 55)
  else None.

(** The character of a [\uXXXX] escape; code units outside the alphabet
    of the model are rendered as [?]. *)
Definition unicode_escape (a b c d : ascii) : option ascii :=
  match hex_val a, hex_val b, hex_val c, hex_val d with
  | Some x, Some y, Some z, Some w =>
      let n := ((x * 16 + y) * 16 + z) * 16 + w in
      Some (if (n <? 256)%nat then ascii_of_nat n else "?"%char)
  | _, _, _, _ => None
  end.

Definition simple_escape (e : ascii) : option ascii :=
  if Ascii.eqb e dquote then Some dquote
  else if Ascii.eqb e backslash then Some backslash
  else if Ascii.eqb e "/" then Some "/"%char
  else if Ascii.eqb e "b" then Some "008"%char
  else if Ascii.eqb e "f" then Some "012"%char
  else if Ascii.eqb e "n" then Some "010"%char
  else if Ascii.eqb e "r" then Some "013"%char
  else if Ascii.eqb e "t" then Some "009"%char
  else None.

(** The rest of a string literal after its opening quote: the decoded
    text and what follows the closing quote. *)
Fixpoint pstring (s : string) : option (string * string) :=
  match s with
  | EmptyString => None
  | String c r =>
      if Ascii.eqb c dquote then Some (EmptyString, r)
      else if Ascii.eqb c backslash then
        match r with
        | EmptyString => None
        | String e r1 =>
            if Ascii.eqb e "u" then
              match r1 with
              | String h1 (String h2 (String h3 (String h4 r2))) =>
                  match unicode_escape h1 h2 h3 h4, pstring r2 with
                  | Some ch, Some (t, rest) => Some (String ch t, rest)
                  | _, _ => None
                  end
              | _ => None
              end
            else
              match simple_escape e, pstring r1 with
              | Some ch, Some (t, rest) => Some (String ch t, rest)
              | _, _ => None
              end
        end
      else if (nat_of_ascii c <? 32)%nat then None
      else match pstring r with
           | Some (t, rest) => Some (String c t, rest)
           | None => None
           end
  end.

(** The longest prefix of digits and the rest. *)
Fixpoint span_digits (s : string) : string * string :=
  match s with
  | String c r =>
      if JS.is_digit c then let (d, rest) := span_digits r in (String c d, rest)
      else (EmptyString, s)
  | EmptyString => (EmptyString, EmptyString)
  end.

(** [int]: a single [0], or a non-zero digit followed by digits. *)
Definition pint (s : string) : option (string * string) :=
  match s with
  | String c r =>
      if Ascii.eqb c "0" then Some ("0", r)
      else if JS.is_digit c then
        let (d, rest) := span_digits r in Some (String c d, rest)
      else None
  | EmptyString => None
  end.

Definition pfrac (s : string) : option (string * string) :=
  match s with
  | String c r =>
      if Ascii.eqb c "." then
        match span_digits r with
        | (EmptyString, _) => None
        | (d, rest) => Some (String c d, rest)
        end
      else Some (EmptyString, s)
  | EmptyString => Some (EmptyString, s)
  end.

Definition psign (s : string) : string * string :=
  match s with
  | String c r =>
      if Ascii.eqb c "+" || Ascii.eqb c "-" then (String c EmptyString, r)
      else (EmptyString, s)
  | EmptyString => (EmptyString, s)
  end.

Definition pexp (s : string) : option (string * string) :=
  match s with
  | String c r =>
      if Ascii.eqb c "e" || Ascii.eqb c "E" then
        let (sign, r1) := psign r in
        match span_digits r1 with
        | (EmptyString, _) => None
        | (d, rest) => Some ((String c sign ++ d)%string, rest)
        end
      else Some (EmptyString, s)
  | EmptyString => Some (EmptyString, s)
  end.

Definition pminus (s : string) : string * string :=
  match s with
  | String c r => if Ascii.eqb c "-" then ("-", r) else (EmptyString, s)
  | EmptyString => (EmptyString, s)
  end.

Definition pnumber (s : string) : option (string * string) :=
  let (sign, r0) := pminus s in
  match pint r0 with
  | None => None
  | Some (i, r1) =>
      match pfrac r1 with
      | None => None
      | Some (f, r2) =>
          match pexp r2 with
          | None => None
          | Some (e, r3) => Some ((sign ++ i ++ f ++ e)%string, r3)
          end
      end
  end.

(** [drop n s] is [s] without its first [n] characters. *)
Fixpoint drop (n : nat) (s : string) : string :=
  match n, s with
  | S k, String _ r => drop k r
  | _, _ => s
  end.

(** The text after the character [c], when [c] is the next character
    that is not white space. *)
Definition next_is (c : ascii) (s : string) : option string :=
  match skip_ws s with
  | String d r => if Ascii.eqb d c then Some r else None
  | EmptyString => None
  end.

(** Recursive descent over the JSON grammar; [fuel] bounds the number of
    nested calls, and [parse] supplies more than a text can use (see
    [pvalue_fuel]). *)
Fixpoint pvalue (fuel : nat) (s : string) {struct fuel}
  : option (json * string) :=
  match fuel with
  | O => None
  | S k =>
      match skip_ws s with
      | EmptyString => None
      | String c r as t =>
          if Ascii.eqb c "{" then
            match next_is "}" r with
            | Some r' => Some (JObj [], r')
            | None => match pmembers k r with
                      | Some (ms, rest) => Some (JObj ms, rest)
                      | None => None
                      end
            end
          else if Ascii.eqb c "[" then
            match next_is "]" r with
            | Some r' => Some (JArr [], r')
            | None => match pitems k r with
                      | Some (vs, rest) => Some (JArr vs, rest)
                      | None => None
                      end
            end
          else if Ascii.eqb c dquote then
            match pstring r with
            | Some (x, rest) => Some (JStr x, rest)
            | None => None
            end
          else if prefix "true" t then Some (JBool true, drop 4 t)
          else if prefix "false" t then Some (JBool false, drop 5 t)
          else if prefix "null" t then Some (JNull, drop 4 t)
          else match pnumber t with
               | Some (lit, rest) => Some (JNum lit, rest)
               | None => None
               end
      end
  end
with pitems (fuel : nat) (s : string) {struct fuel}
  : option (list json * string) :=
  match fuel with
  | O => None
  | S k =>
      match pvalue k s with
      | None => None
      | Some (v, r) =>
          match next_is "," r with
          | Some r' =>
              match pitems k r' with
              | Some (vs, rest) => Some (v :: vs, rest)
              | None => None
              end
          | None =>
              match next_is "]" r with
              | Some r' => Some ([v], r')
              | None => None
              end
          end
      end
  end
with pmembers (fuel : nat) (s : string) {struct fuel}
  : option (list (string * json) * string) :=
  match fuel with
  | O => None
  | S k =>
      match next_is dquote s with
      | None => None
      | Some r =>
          match pstring r with
          | None => None
          | Some (key, r1) =>
              match next_is ":" r1 with
              | None => None
              | Some r2 =>
                  match pvalue k r2 with
                  | None => None
                  | Some (v, r3) =>
                      match next_is "," r3 with
                      | Some r4 =>
                          match pmembers k r4 with
                          | Some (ms, rest) => Some ((key, v) :: ms, rest)
                          | None => None
                          end
                      | None =>
                          match next_is "}" r3 with
                          | Some r4 => Some ([(key, v)], r4)
                          | None => None
                          end
                      end
                  end
              end
          end
      end
  end.

(** [JSON.parse(s)]: [None] is the [SyntaxError]. *)
Definition parse (s : string) : option json :=
  match pvalue (2 * String.length s + 2) s with
  | Some (v, rest) =>
      match skip_ws rest with
      | EmptyString => Some v
      | _ => None
      end
  | None => None
  end.

(** The number a run of digits denotes, continuing from [acc]. *)
Fixpoint digits_value (s : string) (acc : Z) : Z :=
  match s with
  | String c r =>
      if JS.is_digit c
      then digits_value r (acc * 10 + (Z.of_nat (nat_of_ascii c) - 48))%Z
      else acc
  | EmptyString => acc
  end.

(** The digits after the decimal point of a literal, and what follows
    them. *)
Definition fraction_digits (s : string) : string * string :=
  match s with
  | String c r => if Ascii.eqb c "." then span_digits r else (EmptyString, s)
  | EmptyString => (EmptyString, s)
  end.

(** The exponent a literal carries, zero when it has none. *)
Definition exponent_value (s : string) : Z :=
  match s with
  | String c r =>
      if Ascii.eqb c "e" || Ascii.eqb c "E" then
        let (sign, r1) := psign r in
        let (d, _) := span_digits r1 in
        if String.eqb sign "-" then (- digits_value d 0)%Z
        else digits_value d 0
      else 0%Z
  | EmptyString => 0%Z
  end.

(** Whether the Number a literal is read as is zero.  [JSON.parse] reads
    a literal as the double nearest to the decimal it writes, ties going
    to the even one; with [m] the integer its digits write and [scale]
    its exponent less the number of its fraction digits, the decimal is
    [m * 10 ^ scale], and it is read as zero exactly when its magnitude
    is at most [2 ^ -1075], half the least positive double: so [0],
    [-0.0] and [1e-400] are zero, and [5e-324] is not. *)
Definition rounds_to_zero (lit : string) : bool :=
  let (_, r0) := pminus lit in
  let (i, r1) := span_digits r0 in
  let (f, r2) := fraction_digits r1 in
  let m := digits_value (i ++ f) 0 in
  let scale := (exponent_value r2 - Z.of_nat (String.length f))%Z in
  (m =? 0)%Z
  || ((scale <? 0)%Z && (m * 2 ^ 1075 <=? 10 ^ (- scale))%Z).

(** JavaScript truthiness. *)
Definition truthy (v : json) : bool :=
  match v with
  | JNull => false
  | JBool b => b
  | JNum lit => negb (rounds_to_zero lit)
  | JStr s => JS.truthy s
  | JArr _ | JObj _ => true
  end.

(** [a || b] *)
Definition or_else (a b : json) : json := if truthy a then a else b.

(** The own property [key] of an object built by [JSON.parse]: of
    duplicate members the last one stands. *)
Fixpoint lookup (key : string) (ms : list (string * json)) : option json :=
  match ms with
  | [] => None
  | (k, v) :: rest =>
      match lookup key rest with
      | Some w => Some w
      | None => if String.eqb k key then Some v else None
      end
  end.

End Json.
Import Json (json, JNull, JBool, JNum, JStr, JArr, JObj).

(** ** The regular expressions of the source *)

Module Re.

(** A word character, the class [\w]. *)
Definition is_word (c : ascii) : bool :=
  JS.is_upper c || JS.is_lower c || JS.is_digit c || Ascii.eqb c "_".

(** A line terminator, which [.] does not match. *)
Definition is_newline (c : ascii) : bool :=
  let n := nat_of_ascii c in ((n =? 10) || (n =? 13))%nat.

Definition starts_with_word (s : string) : bool :=
  match s with
  | String c _ => is_word c
  | EmptyString => false
  end.

(** [/\bfund\b/] on lower-case text: an occurrence of [fund] with no
    word character right before or right after it. *)
Fixpoint word_fund_from (prev_is_word : bool) (s : string) : bool :=
  (negb prev_is_word && prefix "fund" s
     && negb (starts_with_word (Json.drop 4 s)))
  || match s with
     | EmptyString => false
     | String c r => word_fund_from (is_word c) r
     end.

(** The text up to the first line terminator. *)
Fixpoint first_line (s : string) : string :=
  match s with
  | EmptyString => EmptyString
  | String c r => if is_newline c then EmptyString else String c (first_line r)
  end.

(** [/@.*w/] on lower-case text: an [@] followed, on the same line, by [w]. *)
Fixpoint at_then (w s : string) : bool :=
  match s with
  | EmptyString => false
  | String c r =>
      (Ascii.eqb c "@" && JS.includes (first_line r) w) || at_then w r
  end.

(** The patterns [vcPatterns] of [getCalendarEvents]; all carry the flag
    [i], rendered by matching the lower-cased text. *)
Inductive pattern : Type :=
| Ventures | Capital | WordFund | Partners | Investments | DotVc
| AtVentures | AtCapital | AtFund.

Definition test (p : pattern) (text : string) : bool :=
  let s := JS.toLowerCase text in
  match p with
  | Ventures => JS.includes s "venture"
  | Capital => JS.includes s "capital"
  | WordFund => word_fund_from false s
  | Partners => JS.includes s "partner"
  | Investments => JS.includes s "investment"
  | DotVc => JS.includes s ".vc"
  | AtVentures => at_then "ventures" s
  | AtCapital => at_then "capital" s
  | AtFund => at_then "fund" s
  end.

(** [s.replace(/^```json\s*|```\s*$/g, '')]: the leading fence with the
    white space after it, and a fence that only white space follows. *)
Definition strip_open_fence (s : string) : string :=
  if prefix "```json" s then JS.trimStart (Json.drop 7 s) else s.

Fixpoint strip_close_fence (s : string) : string :=
  if prefix "```" s && negb (JS.truthy (JS.trimStart (Json.drop 3 s)))
  then EmptyString
  else match s with
       | EmptyString => EmptyString
       | String c r => String c (strip_close_fence r)
       end.

Definition strip_fences (s : string) : string :=
  strip_close_fence (strip_open_fence s).

(** The text up to and including its last [}], if it has one. *)
Fixpoint upto_last_close (s : string) : option string :=
  match s with
  | EmptyString => None
  | String c r =>
      match upto_last_close r with
      | Some t => Some (String c t)
      | None => if Ascii.eqb c "}" then Some (String c EmptyString) else None
      end
  end.


(** [s.match(/{[\s\S]*}/)]: from the first [{] to the last [}] after it. *)
Fixpoint match_braces (s : string) : option string :=
  match s with
  | EmptyString => None
  | String c r =>
      if Ascii.eqb c "{" then
        match upto_last_close r with
        | Some t => Some (String c t)
        | None => None
        end
      else match_braces r
  end.

End Re.

(** ** Calendar events and the event selector *)

Record Event : Type := mkEvent {
  summary : string;
  description : string;
  organizer_email : string;
  attendees : list string;      (* [a.email] of each attendee, in order *)
  start_dateTime : string;
  start_date : string
}.

(** [event.start?.dateTime || event.start?.date] *)
Definition eventStart (ev : Event) : string :=
  JS.or_else (start_dateTime ev) (start_date ev).

Definition keywords : list string :=
  ["investor"; "pitch"; "intro"; "funding"; "vc"; "investment"; "demo";
   "meeting"; "vie"; "capital"; "ventures"; "fund"; "consultation";
   "session"; "call"; "sync"; "discussion"].

Definition vcPatterns : list Re.pattern :=
  [Re.Ventures; Re.Capital; Re.WordFund; Re.Partners; Re.Investments;
   Re.DotVc; Re.AtVentures; Re.AtCapital; Re.AtFund].

(** [event.attendees?.map(a => a.email?.toLowerCase()).filter(Boolean) || []] *)
Definition lowerAttendees (ev : Event) : list string :=
  filter JS.truthy (map JS.toLowerCase (attendees ev)).

Definition hasKeywords (ev : Event) : bool :=
  let title := JS.toLowerCase (summary ev) in
  let descr := JS.toLowerCase (description ev) in
  existsb (fun k => JS.includes title k || JS.includes descr k) keywords.

Definition hasVCPatterns (ev : Event) : bool :=
  let title := JS.toLowerCase (summary ev) in
  let descr := JS.toLowerCase (description ev) in
  let organizerEmail := JS.toLowerCase (organizer_email ev) in
  existsb (fun p => Re.test p title || Re.test p descr
                    || existsb (fun e => Re.test p e) (lowerAttendees ev)
                    || Re.test p organizerEmail) vcPatterns.

Definition hasBizAttendees (ev : Event) : bool :=
  existsb (fun e => negb (JS.includes e "viehq.com")
                    && negb (JS.includes e "gmail.com")
                    && negb (JS.includes e "yahoo.com")
                    && negb (JS.includes e "hotmail.com")
                    && JS.includes e "@") (lowerAttendees ev).

(** Some venture pattern matches the text. *)
Definition matchesVenturePattern (text : string) : bool :=
  existsb (fun p => Re.test p text) vcPatterns.

(** Some keyword occurs in the lower-cased text. *)
Definition mentionsKeyword (text : string) : bool :=
  existsb (fun k => JS.includes (JS.toLowerCase text) k) keywords.

(** The predicate of [allEvents.filter(...)] in [getCalendarEvents]. *)
Definition matchesFilter (ev : Event) : bool :=
  hasKeywords ev || hasVCPatterns ev || hasBizAttendees ev.

(** ** Contacts, insights and the contact sheet *)

Record Contact : Type := mkContact {
  name : string;
  email : string;
  status : json;
  nextStep : json;
  notes : json;
  lastMeeting : string;
  createdAt : string
}.

Record Insight : Type := mkInsight {
  i_status : json;
  i_nextStep : json;
  i_notes : json
}.

Record NotesResult : Type := mkNotes {
  content : string;
  source : string
}.

(** A row of the range [Contacts!A:G] as [values.get] returns it: the
    cells of columns A to G, trailing empty cells left out. *)
Definition Row : Type := list string.
Definition Sheet : Type := list Row.

(** [row[i] || ''] *)
Definition cell (i : nat) (row : Row) : string := nth i row EmptyString.

(** What a cell holds after a [RAW] write of a JavaScript value, as a
    later read returns it.  Strings are stored as they are; the other
    cases do not arise from text cells and are rendered by their literal. *)
Definition cellText (v : json) : string :=
  match v with
  | JStr x => x
  | JNum lit => lit
  | JBool true => "TRUE"
  | JBool false => "FALSE"
  | JNull | JArr _ | JObj _ => EmptyString
  end.

(** How [values.update] on the range [Contacts!A:G] changes the sheet.
    The Sheets service writes the cells the request covers and leaves the
    rows below them as they were ([OverwriteCells]); the abstract store
    interface of the specification replaces the whole range
    ([ReplaceRange]).  The properties below hold for both. *)
Inductive RangeWrite : Type := OverwriteCells | ReplaceRange.

Definition write_rows (mode : RangeWrite) (values sheet : Sheet) : Sheet :=
  match mode with
  | OverwriteCells => values ++ skipn (List.length values) sheet
  | ReplaceRange => values
  end.

(** The emails of the contacts a sheet holds, header row apart. *)
Definition storeEmails (sh : Sheet) : list string := map (cell 1) (tl sh).

(** ** The world and the collaborators *)

Record World : Type := mkWorld {
  sheet : Sheet;            (* the range [Contacts!A:G] *)
  marker : string;          (* the cell [Contacts!H1] *)
  prompts : list string     (* prompts sent to the language model so far *)
}.

Record Services : Type := mkServices {
  authorize : Res unit;                 (* [auth.authorize()] *)
  calendar_list : Res (list Event);     (* [events.list(...)], [data.items || []] *)
  sheet_get : Res unit;                 (* whether [values.get] answers *)
  sheet_update : Res unit;              (* whether the contacts [values.update] answers *)
  marker_update : Res unit;             (* whether the [H1] [values.update] answers *)
  range_write : RangeWrite;
  fireflies_api : string -> string -> Res string;
      (* transcript text for (email, meetingDate), empty when none matches *)
  fireflies_mail : string -> string -> string -> Res string;
      (* [getFirefliesEmailSummary](email, meetingDate, meetingTitle) *)
  gmail_recap : string -> string -> string -> Res string;
      (* [getGmailMeetingRecap](email, meetingDate, meetingTitle) *)
  complete : string -> Res string;
      (* the text the language model returns for a prompt, empty when the
         response carries none *)
  date_parse : string -> option Z;
      (* the time value of [new Date(s)] for non-empty [s]; [None] is an
         invalid date *)
  now : string                          (* [new Date().toISOString()] *)
}.

(** The state-and-error monad of the handler. *)
Definition M (A : Type) : Type := World -> Res A * World.

Definition ret {A} (a : A) : M A := fun w => (Ok a, w).

Definition throw {A} (msg : string) : M A := fun w => (Throw msg, w).

Definition bind {A B} (m : M A) (k : A -> M B) : M B :=
  fun w =>
    match m w with
    | (Ok a, w') => k a w'
    | (Throw msg, w') => (Throw msg, w')
    end.

(** [try { m } catch (e) { h(e.message) }] *)
Definition try_catch {A} (m : M A) (h : string -> M A) : M A :=
  fun w =>
    match m w with
    | (Ok a, w') => (Ok a, w')
    | (Throw msg, w') => h msg w'
    end.

Definition lift {A} (r : Res A) : M A := fun w => (r, w).

Declare Scope sync_scope.
Delimit Scope sync_scope with sync.
Notation "x <- m ;; k" := (bind m (fun x => k))
  (at level 61, m at next level, right associativity) : sync_scope.
Notation "m ;;; k" := (bind m (fun _ => k))
  (at level 61, right associativity) : sync_scope.
Open Scope sync_scope.

(** [for (const x of xs) acc = body(acc, x)] with early exit on a throw. *)
Fixpoint foldM {A B} (body : B -> A -> M B) (xs : list A) (acc : B) : M B :=
  match xs with
  | [] => ret acc
  | x :: rest => acc' <- body acc x ;; foldM body rest acc'
  end.

(** ** Dates *)

Section Dates.
Variable svc : Services.

(** The time value of [new Date(s)]; a missing or empty argument gives an
    invalid date. *)
Definition newDate (s : string) : option Z :=
  if JS.truthy s then date_parse svc s else None.

(** The time value of [new Date(s || 0)]. *)
Definition newDateOr0 (s : string) : option Z :=
  if JS.truthy s then date_parse svc s else Some 0%Z.

(** [a > b] on two dates: false as soon as one of them is invalid. *)
Definition date_gt (a b : option Z) : bool :=
  match a, b with
  | Some x, Some y => Z.ltb y x
  | _, _ => false
  end.

(** [a <= b] on two valid dates. *)
Definition date_le (a b : option Z) : Prop :=
  match a, b with
  | Some x, Some y => (x <= y)%Z
  | _, _ => False
  end.

Definition isValid (d : option Z) : bool :=
  match d with Some _ => true | None => false end.

End Dates.

(** ** The in-run contact map

    [processedContacts] and [uniqueContacts] are JavaScript [Map]s from an
    email to a contact object; a [Map] iterates in insertion order and
    [set] on a present key keeps the key's place. *)

Definition PMap : Type := list (string * Contact).

Fixpoint pm_get (key : string) (m : PMap) : option Contact :=
  match m with
  | [] => None
  | (k, c) :: rest => if String.eqb k key then Some c else pm_get key rest
  end.

Definition pm_has (key : string) (m : PMap) : bool :=
  match pm_get key m with Some _ => true | None => false end.

Fixpoint pm_set (key : string) (c : Contact) (m : PMap) : PMap :=
  match m with
  | [] => [(key, c)]
  | (k, d) :: rest =>
      if String.eqb k key then (k, c) :: rest else (k, d) :: pm_set key c rest
  end.

(** [Array.from(m.values())] *)
Definition pm_values (m : PMap) : list Contact := map snd m.

(** The predicate [c => c.email === e]. *)
Definition hasEmail (e : string) (c : Contact) : bool := String.eqb (email c) e.

Definition set_lastMeeting (c : Contact) (t : string) : Contact :=
  mkContact (name c) (email c) (status c) (nextStep c) (notes c) t (createdAt c).

(** ** The handler and its helpers *)

Inductive AIClient : Type := OpenAIClient | GeminiClient.

Record Request : Type := mkRequest {
  header_cron_secret : string;     (* [req.headers['x-cron-secret']] *)
  body_cron_secret : string;       (* [req.body?.cronSecret] *)
  method : string
}.

Inductive Response : Type :=
| Unauthorized                                   (* 401 *)
| MethodNotAllowed                               (* 405 *)
| SyncCompleted (contactsProcessed eventsProcessed : nat) (timestamp : string)
                                                 (* 200 *)
| SyncFailed (message timestamp : string).       (* 500 *)

Definition quote : string := String Json.dquote EmptyString.
Definition newline : string := String "010"%char EmptyString.

(** [{"status": "...", "nextStep": "...", "notes": "..."}] *)
Definition jsonShape : string :=
  ("{" ++ quote ++ "status" ++ quote ++ ": " ++ quote ++ "..." ++ quote
   ++ ", " ++ quote ++ "nextStep" ++ quote ++ ": " ++ quote ++ "..." ++ quote
   ++ ", " ++ quote ++ "notes" ++ quote ++ ": " ++ quote ++ "..." ++ quote
   ++ "}")%string.

Definition promptLimit : nat := 7 * 1000.
Definition minContentLength : nat := 20.

Definition firefliesPrompt (contactNameToUse notesContent : string) : string :=
  JS.join newline
    [("Analyze this Fireflies meeting content for CRM. Contact: "
        ++ contactNameToUse ++ ".")%string;
     "Extract:";
     "1. Investment interest/sentiment (e.g., 'High Interest', 'Passed').";
     "2. Specific next actions/commitments.";
     "3. Key concerns, requirements, objections.";
     "4. Decision timelines or funding amounts.";
     "5. Other critical CRM notes.";
     ("Output JSON: " ++ jsonShape
        ++ " (combine 3,4,5 into notes, max 300 chars).")%string;
     "Content (max 7000 chars):";
     "---";
     JS.take promptLimit notesContent;
     "---"].

Definition summaryPrompt (contactNameToUse notesContent : string) : string :=
  JS.join newline
    [("Summarize meeting content for CRM. Contact: "
        ++ contactNameToUse ++ ".")%string;
     "Extract:";
     "1. Investment status (e.g., 'Interested', 'Passed').";
     "2. Single most important next step.";
     "3. Brief summary of key points (max 300 chars for notes).";
     ("Output JSON: " ++ jsonShape ++ ".")%string;
     "Content (max 7000 chars):";
     "---";
     JS.take promptLimit notesContent;
     "---"].

(** The message of the [SyntaxError] of [JSON.parse] and of the
    [TypeError] of a member access on [null]; their wording belongs to the
    engine. *)
Definition syntaxErrorMessage : string := "Unexpected token in JSON".
Definition nullAccessMessage : string := "Cannot read properties of null".

Definition json_parse (s : string) : M json :=
  match Json.parse s with
  | Some v => ret v
  | None => throw syntaxErrorMessage
  end.

(** The member [key] of a parsed object; a missing member is [undefined],
    rendered by the falsy [JNull]: the only use of the result is
    [pA.key || d]. *)
Definition field (key : string) (ms : list (string * json)) : json :=
  match Json.lookup key ms with Some x => x | None => JNull end.

(** [pA.key] for one of the keys [status], [nextStep], [notes]: a
    [TypeError] on [null], the member of an object, [undefined] on every
    other value. *)
Definition member (key : string) (v : json) : M json :=
  match v with
  | JNull => throw nullAccessMessage
  | JObj ms => ret (field key ms)
  | _ => ret JNull
  end.

(** The prompt [analyzeWithAI] builds: the richer one for the two
    transcript sources, the lighter one otherwise. *)
Definition analysisPrompt (notesContent contactName sourceType : string)
  : string :=
  let contactNameToUse :=
    JS.or_else contactName (getNameFromEmail contactName) in
  if String.eqb sourceType "Fireflies API"
     || String.eqb sourceType "Fireflies Email"
  then firefliesPrompt contactNameToUse notesContent
  else summaryPrompt contactNameToUse notesContent.

Section Sync.

Variable env : Env.
Variable svc : Services.

Definition getAIClient : M AIClient :=
  if JS.truthy (OPENAI_API_KEY env) then ret OpenAIClient
  else if JS.truthy (GEMINI_API_KEY env) then ret GeminiClient
  else throw "No AI API key configured".

(** One request to the language model: the prompt is logged in the world,
    then the service answers or fails. *)
Definition call_model (prompt : string) : M string :=
  fun w =>
    (complete svc prompt,
     mkWorld (sheet w) (marker w) (prompts w ++ [prompt])).

Definition insufficientInsight (sourceType : string) : Insight :=
  mkInsight (JStr "Manual Review Needed")
            (JStr "Insufficient content for AI")
            (JStr ("No meaningful content from " ++ sourceType ++ ".")%string).

Definition failedInsight (message : string) : Insight :=
  mkInsight (JStr "Manual Review") (JStr "Review AI")
            (JStr ("AI failed: " ++ message)%string).

Definition analyzeWithAI (notesContent contactName sourceType : string)
  : M Insight :=
  if negb (JS.truthy notesContent)
     || (String.length (JS.trim notesContent) <? minContentLength)%nat
  then ret (insufficientInsight sourceType)
  else
    aiClient <- getAIClient ;;
    let prompt := analysisPrompt notesContent contactName sourceType in
    try_catch
      (analysisResultText <-
         (if JS.truthy (OPENAI_API_KEY env) then call_model prompt
          else if JS.truthy (GEMINI_API_KEY env) then call_model prompt
          else throw "No AI client configured.") ;;
       if negb (JS.truthy analysisResultText) then throw "AI response empty."
       else
         pA <- try_catch
                 (json_parse (JS.trim (Re.strip_fences analysisResultText)))
                 (fun _ =>
                    match Re.match_braces analysisResultText with
                    | Some m0 => json_parse m0
                    | None => throw "AI response not valid JSON."
                    end) ;;
         st <- member "status" pA ;;
         ns <- member "nextStep" pA ;;
         nt <- member "notes" pA ;;
         ret (mkInsight (Json.or_else st (JStr "Manual Review"))
                        (Json.or_else ns (JStr "Review AI"))
                        (Json.or_else nt (JStr "AI notes missing."))))
      (fun message => ret (failedInsight message)).

(** *** Notes sources

    The three sources are tried in order and the first text found is
    returned.  What each source finds is the answer of a collaborator:
    the queries that [getFirefliesTranscript], [getFirefliesEmailSummary]
    and [getGmailMeetingRecap] build for the transcript provider and the
    mailbox are not part of the model. *)

Definition getFirefliesTranscript (email meetingDate : string) : M string :=
  if negb (JS.truthy (FIREFLIES_API_KEY env))
  then throw "Fireflies API key not configured"
  else match fireflies_api svc email meetingDate with
       | Ok t => ret t
       | Throw msg => throw ("Fireflies API error: " ++ msg)%string
       end.

Definition notes_of (text src : string) : option NotesResult :=
  if JS.truthy text then Some (mkNotes text src) else None.

Definition getMeetingNotes (email meetingDate meetingTitle : string)
  : M (option NotesResult) :=
  r1 <- try_catch
          (if JS.truthy (FIREFLIES_API_KEY env)
           then ffTr <- getFirefliesTranscript email meetingDate ;;
                ret (notes_of ffTr "Fireflies API")
           else ret None)
          (fun _ => ret None) ;;
  match r1 with
  | Some n => ret (Some n)
  | None =>
      r2 <- try_catch
              (ffEm <- lift (fireflies_mail svc email meetingDate meetingTitle) ;;
               ret (notes_of ffEm "Fireflies Email"))
              (fun _ => ret None) ;;
      match r2 with
      | Some n => ret (Some n)
      | None =>
          try_catch
            (gmSum <- lift (gmail_recap svc email meetingDate meetingTitle) ;;
             ret (notes_of gmSum "Gmail"))
            (fun _ => ret None)
      end
  end.

(** *** The event selector *)

Definition getCalendarEvents : M (list Event) :=
  allEvents <- lift (calendar_list svc) ;;
  ret (filter matchesFilter allEvents).

(** *** Reading and writing the sheet *)

Definition sheets_values_get : M Sheet :=
  fun w =>
    match sheet_get svc with
    | Ok _ => (Ok (sheet w), w)
    | Throw msg => (Throw msg, w)
    end.

(** One [values.update] request over [Contacts!A:G]: it stores all the
    rows or, when it fails, none. *)
Definition sheets_values_update (values : Sheet) : M unit :=
  fun w =>
    match sheet_update svc with
    | Ok _ => (Ok tt, mkWorld (write_rows (range_write svc) values (sheet w))
                              (marker w) (prompts w))
    | Throw msg => (Throw msg, w)
    end.

Definition rowContact (row : Row) : Contact :=
  mkContact (cell 0 row) (cell 1 row) (JStr (cell 2 row)) (JStr (cell 3 row))
            (JStr (cell 4 row)) (cell 5 row) (cell 6 row).

Definition keepContact (c : Contact) : bool :=
  JS.truthy (email c) && negb (shouldSkipEmail env (email c)).

(** The contacts [getSheetContacts] makes of the rows it read: none when
    there is at most the header row, else the rows below the header that
    carry an email the exclusion policy lets through. *)
Definition storedContacts (rows : Sheet) : list Contact :=
  if (List.length rows <=? 1)%nat then []
  else filter keepContact (map rowContact (tl rows)).

Definition getSheetContacts : M (list Contact) :=
  try_catch
    (rows <- sheets_values_get ;;
     ret (storedContacts rows))
    (fun _ => ret []).

Definition headerRow : Row :=
  ["Name"; "Email"; "Status"; "Next Step"; "Notes"; "Last Meeting";
   "Created At"].

Definition contactRow (c : Contact) : Row :=
  [name c; email c;
   cellText (Json.or_else (status c) (JStr EmptyString));
   cellText (Json.or_else (nextStep c) (JStr EmptyString));
   cellText (Json.or_else (notes c) (JStr EmptyString));
   lastMeeting c; createdAt c].

(** The body of [contacts.forEach] in [updateSheetContacts]. *)
Definition dedupeStep (uniqueContacts : PMap) (c : Contact) : PMap :=
  if keepContact c then
    match pm_get (email c) uniqueContacts with
    | Some ex =>
        if date_gt (newDateOr0 svc (lastMeeting c))
                   (newDateOr0 svc (lastMeeting ex))
        then pm_set (email c) c uniqueContacts
        else uniqueContacts
    | None => pm_set (email c) c uniqueContacts
    end
  else uniqueContacts.

Definition cleanContacts (contacts : list Contact) : list Contact :=
  pm_values (fold_left dedupeStep contacts []).

Definition updateSheetContacts (contacts : list Contact) : M unit :=
  sheets_values_update (headerRow :: map contactRow (cleanContacts contacts)).

Definition recordSyncTimestamp : M unit :=
  let ts := now svc in
  try_catch
    (fun w =>
       match marker_update svc with
       | Ok _ => (Ok tt, mkWorld (sheet w) ts (prompts w))
       | Throw msg => (Throw msg, w)
       end)
    (fun _ => ret tt).

(** *** The merge loop *)

Definition newContact (ev : Event) (email : string) : Contact :=
  mkContact (getNameFromEmail email) email (JStr "New Contact")
            (JStr "Initial outreach") (JStr EmptyString) (eventStart ev)
            (now svc).

Definition applyInsight (c : Contact) (a : Insight) : Contact :=
  mkContact (name c) (email c)
            (Json.or_else (i_status a) (status c))
            (Json.or_else (i_nextStep a) (nextStep c))
            (Json.or_else (i_notes a) (notes c))
            (lastMeeting c) (createdAt c).

(** [if (new Date(start) > new Date(c.lastMeeting || 0)) c.lastMeeting = start] *)
Definition advanceLastMeeting (ev : Event) (c : Contact) : Contact :=
  if date_gt (newDate svc (eventStart ev)) (newDateOr0 svc (lastMeeting c))
  then set_lastMeeting c (eventStart ev)
  else c.

(** [existingContacts.find(c => c.email === email)], or the fresh contact
    when there is none. *)
Definition baseContact (existingContacts : list Contact) (ev : Event)
    (email : string) : Contact :=
  match find (hasEmail email) existingContacts with
  | Some c => c
  | None => newContact ev email
  end.

(** The body of [for (const email of attendeeEmails)].  A contact taken
    from [existingContacts] is the stored object itself; it is looked up
    only while its email is not yet a key of [processedContacts], so the
    in-place updates of the source are the updates of the map entry. *)
Definition processAttendee (existingContacts : list Contact) (ev : Event)
    (processedContacts : PMap) (email : string) : M PMap :=
  if shouldSkipEmail env email then ret processedContacts
  else
    match pm_get email processedContacts with
    | Some exContact =>
        ret (pm_set email (advanceLastMeeting ev exContact) processedContacts)
    | None =>
        let contact := baseContact existingContacts ev email in
        meetingNotes <-
          try_catch (getMeetingNotes email (start_dateTime ev) (summary ev))
                    (fun _ => ret None) ;;
        contact1 <-
          match meetingNotes with
          | Some mn =>
              try_catch
                (analysis <- analyzeWithAI (content mn)
                               (JS.or_else (name contact) email) (source mn) ;;
                 ret (applyInsight contact analysis))
                (fun _ => ret contact)
          | None => ret contact
          end ;;
        ret (pm_set email (advanceLastMeeting ev contact1) processedContacts)
    end.

(** [event.attendees?.map(a => a.email).filter(Boolean) || []] *)
Definition attendeeEmails (ev : Event) : list string :=
  filter JS.truthy (attendees ev).

(** The body of [for (const event of calendarEvents)]; nothing inside the
    [try] throws (see [processEvent_returns]), so the [catch] is never
    entered. *)
Definition processEvent (existingContacts : list Contact)
    (processedContacts : PMap) (ev : Event) : M PMap :=
  try_catch
    (foldM (processAttendee existingContacts ev) (attendeeEmails ev)
           processedContacts)
    (fun _ => ret processedContacts).

(** The attendee sightings of a run, in the order the loop visits them. *)
Definition observations (calendarEvents : list Event) : list (Event * string) :=
  flat_map (fun ev => map (pair ev) (attendeeEmails ev)) calendarEvents.

Definition mergeLoop (existingContacts : list Contact)
    (calendarEvents : list Event) : M PMap :=
  foldM (processEvent existingContacts) calendarEvents [].

(** *** The handler *)

Definition handler (req : Request) : M Response :=
  let cronSecret :=
    JS.or_else (header_cron_secret req) (body_cron_secret req) in
  if negb (JS.truthy cronSecret)
     || negb (String.eqb cronSecret (CRON_SECRET env))
  then ret Unauthorized
  else if negb (String.eqb (method req) "POST") then ret MethodNotAllowed
  else
    try_catch
      (lift (authorize svc) ;;;
       calendarEvents <- getCalendarEvents ;;
       existingContacts <- getSheetContacts ;;
       processedContacts <- mergeLoop existingContacts calendarEvents ;;
       let updatedContacts := pm_values processedContacts in
       (if (0 <? List.length updatedContacts)%nat
        then updateSheetContacts updatedContacts
        else ret tt) ;;;
       recordSyncTimestamp ;;;
       ret (SyncCompleted (List.length updatedContacts)
                          (List.length calendarEvents) (now svc)))
      (fun message => ret (SyncFailed message (now svc))).

End Sync.

(** ** The earlier revision of the insight extractor

    [analyzeWithAI] as [pages/api/sync.js] has it: the client is created
    inside the [try], there is no length check, and the parsed response is
    returned as it is. *)

Module Earlier.

Section Analyze.

Variable env : Env.
Variable svc : Services.

Definition statusChoices : string :=
  JS.join ", "
    [(quote ++ "Interested" ++ quote)%string;
     (quote ++ "Follow-up" ++ quote)%string;
     (quote ++ "Meeting Scheduled" ++ quote)%string;
     (quote ++ "Rejected" ++ quote)%string;
     (quote ++ "Under Review" ++ quote)%string].

Definition prompt (content contactName source : string) : string :=
  JS.join newline
    [EmptyString;
     ("Analyze this investor meeting " ++ JS.toLowerCase source
        ++ " and extract CRM information. ")%string;
     ("Contact: " ++ contactName)%string;
     ("Source: " ++ source)%string;
     EmptyString;
     "Content:";
     content;
     EmptyString;
     "Please provide a JSON response with:";
     ("- status: (one of: " ++ statusChoices ++ ")")%string;
     "- nextStep: (specific next action to take)";
     "- notes: (key insights, concerns, or important details - max 200 chars)";
     EmptyString;
     "Focus on investment interest, concerns raised, timeline, and concrete next steps mentioned.";
     EmptyString].

Definition defaultAnalysis (source : string) : json :=
  JObj [("status", JStr "Under Review");
        ("nextStep", JStr "Manual review required");
        ("notes", JStr (source ++ " content found - manual review needed")%string)].

Definition analyzeWithAI (content contactName source : string) : M json :=
  try_catch
    (if JS.truthy (OPENAI_API_KEY env) then
       getAIClient env ;;;
       text <- call_model svc (prompt content contactName source) ;;
       if JS.truthy text then json_parse text
       else throw "No AI response received"
     else if JS.truthy (GEMINI_API_KEY env) then
       getAIClient env ;;;
       text <- call_model svc (prompt content contactName source) ;;
       if JS.truthy text then json_parse text
       else throw "No AI response received"
     else throw "No AI response received")
    (fun _ => ret (defaultAnalysis source)).

End Analyze.

(** The event filter of that revision: the organizer is tested together
    with the attendees, [[...attendeeEmails, organizerEmail].some(...)]. *)
Definition hasVCPatterns (ev : Event) : bool :=
  let title := JS.toLowerCase (summary ev) in
  let descr := JS.toLowerCase (description ev) in
  let organizerEmail := JS.toLowerCase (organizer_email ev) in
  existsb (fun p => Re.test p title || Re.test p descr
                    || existsb (fun e => Re.test p e)
                               (lowerAttendees ev ++ [organizerEmail]))
          vcPatterns.

Definition matchesFilter (ev : Event) : bool :=
  hasKeywords ev || hasVCPatterns ev || hasBizAttendees ev.

End Earlier.

(** ** The merge loop as a relation

    What one attendee sighting does to [processedContacts], read off
    [processAttendee] with the effects set aside; the lemmas of the second
    part show that the loop of the handler follows it. *)

Section MergeSteps.

Variable env : Env.
Variable svc : Services.
Variable existingContacts : list Contact.

(** [c1] is [base] with possibly other [status], [nextStep], [notes]. *)
Definition enriched (base c1 : Contact) : Prop :=
  name c1 = name base /\ email c1 = email base
  /\ lastMeeting c1 = lastMeeting base /\ createdAt c1 = createdAt base.

Definition sighting_step (o : Event * string) (pc pc' : PMap) : Prop :=
  let (ev, k) := o in
  if shouldSkipEmail env k then pc' = pc
  else
    match pm_get k pc with
    | Some ex => pc' = pm_set k (advanceLastMeeting svc ev ex) pc
    | None =>
        exists c1,
          pc' = pm_set k (advanceLastMeeting svc ev c1) pc
          /\ enriched (baseContact svc existingContacts ev k) c1
    end.

Fixpoint steps (obs : list (Event * string)) (pc pc' : PMap) : Prop :=
  match obs with
  | [] => pc' = pc
  | o :: rest => exists pc1, sighting_step o pc pc1 /\ steps rest pc1 pc'
  end.

(** Every key of the map is the email of its contact and passes the
    exclusion policy, and no key occurs twice. *)
Definition wellKeyed (pc : PMap) : Prop :=
  NoDup (map fst pc)
  /\ forall k c, In (k, c) pc -> email c = k /\ shouldSkipEmail env k = false.

(** The same for [uniqueContacts], whose contacts pass [keepContact]. *)
Definition keyedAndKept (acc : PMap) : Prop :=
  NoDup (map fst acc)
  /\ forall k c, In (k, c) acc -> email c = k /\ keepContact env c = true.

(** The time value of a contact's [lastMeeting], as the comparisons of
    the handler read it. *)
Definition lastMeetingTime (c : Contact) : option Z :=
  newDateOr0 svc (lastMeeting c).

(** The loop invariant behind the monotone [lastMeeting]: after the
    sightings [seen], every contact of the map carries a valid time that
    is no earlier than the time its stored record had and than the start
    of every event it was sighted on, and that is one of these times. *)
Definition timely (seen : list (Event * string)) (pc : PMap) : Prop :=
  wellKeyed pc
  /\ (forall ev k, In (ev, k) seen -> shouldSkipEmail env k = false ->
                   pm_get k pc <> None)
  /\ (forall k c, pm_get k pc = Some c ->
        lastMeetingTime c <> None
        /\ (forall c0, find (hasEmail k) existingContacts = Some c0 ->
                       date_le (lastMeetingTime c0) (lastMeetingTime c))
        /\ (forall ev, In (ev, k) seen ->
                       date_le (newDate svc (eventStart ev))
                               (lastMeetingTime c))
        /\ ((exists c0, find (hasEmail k) existingContacts = Some c0
                        /\ lastMeetingTime c = lastMeetingTime c0)
            \/ (exists ev, In (ev, k) seen
                           /\ lastMeetingTime c = newDate svc (eventStart ev)))).

(** Every contact of the map stands for a sighting of its key, and keeps
    the name and creation time of the stored record it was taken from. *)
Definition traced (seen : list (Event * string)) (pc : PMap) : Prop :=
  forall k c, pm_get k pc = Some c ->
    (exists ev, In (ev, k) seen)
    /\ (forall c0, find (hasEmail k) existingContacts = Some c0 ->
                   name c = name c0 /\ createdAt c = createdAt c0).

(** Every event start is a valid date. *)
Definition validStarts (events : list Event) : bool :=
  forallb (fun ev => isValid (newDate svc (eventStart ev))) events.

(** Every stored [lastMeeting] is empty or a valid date. *)
Definition validStore (contacts : list Contact) : bool :=
  forallb (fun c => isValid (lastMeetingTime c)) contacts.

(** The first row below the header whose email cell is [k]: the row
    [existingContacts.find] answers with for a key the exclusion policy
    lets through. *)
Definition storedRow (sh : Sheet) (k : string) : option Row :=
  find (fun row => String.eqb (cell 1 row) k) (tl sh).

(** The time value of the [lastMeeting] cell (column F) of a row. *)
Definition rowTime (row : Row) : option Z := newDateOr0 svc (cell 5 row).

(** Every [lastMeeting] cell below the header is empty or a valid date. *)
Definition validRows (sh : Sheet) : bool :=
  forallb (fun row => isValid (rowTime row)) (tl sh).

End MergeSteps.

(** The world after a sequence of runs, each with its own collaborators
    and request. *)
Fixpoint afterRuns (env : Env) (runs : list (Services * Request)) (w : World)
  : World :=
  match runs with
  | [] => w
  | (svc, req) :: rest => afterRuns env rest (snd (handler env svc req w))
  end.

(** ** Reading the handler *)

Section HandlerReading.

Variable env : Env.
Variable svc : Services.

(** The request passes the secret and method checks of the handler. *)
Definition authorizedPost (req : Request) : bool :=
  let cronSecret :=
    JS.or_else (header_cron_secret req) (body_cron_secret req) in
  JS.truthy cronSecret && String.eqb cronSecret (CRON_SECRET env)
  && String.eqb (method req) "POST".

(** What [getSheetContacts] returns in world [w]. *)
Definition readContacts (w : World) : list Contact :=
  match sheet_get svc with
  | Ok _ => storedContacts env (sheet w)
  | Throw _ => []
  end.

(** The world after [recordSyncTimestamp]. *)
Definition recordMarker (w : World) : World :=
  match marker_update svc with
  | Ok _ => mkWorld (sheet w) (now svc) (prompts w)
  | Throw _ => w
  end.

(** The rows a run sends to the sheet for the map [pc]. *)
Definition writtenRows (pc : PMap) : Sheet :=
  headerRow :: map contactRow (cleanContacts env svc (pm_values pc)).

(** A computation that leaves the sheet and the marker alone. *)
Definition keepsStore {A} (m : M A) : Prop :=
  forall w, sheet (snd (m w)) = sheet w /\ marker (snd (m w)) = marker w.

(** A computation whose result does not depend on the world it starts
    from. *)
Definition pureResult {A} (m : M A) : Prop :=
  forall w1 w2, fst (m w1) = fst (m w2).

End HandlerReading.

(** ** Sample collaborators

    A [Date] parser for ISO-8601 text and a few concrete environments,
    used to run the model on the scenarios of the specification. *)

Module Iso.

Definition digit (c : ascii) : option Z :=
  if JS.is_digit c then Some (Z.of_nat (nat_of_ascii c) - 48)%Z else None.

(** Reads exactly [n] digits. *)
Fixpoint number (n : nat) (s : string) (acc : Z) : option (Z * string) :=
  match n with
  | O => Some (acc, s)
  | S k =>
      match s with
      | String c r =>
          match digit c with
          | Some d => number k r (acc * 10 + d)%Z
          | None => None
          end
      | EmptyString => None
      end
  end.

Definition expect (c : ascii) (s : string) : option string :=
  match s with
  | String d r => if Ascii.eqb d c then Some r else None
  | EmptyString => None
  end.

(** Days from 1970-01-01 to the given day of the proleptic Gregorian
    calendar. *)
Definition days_from_civil (y m d : Z) : Z :=
  let y' := if (m <=? 2)%Z then (y - 1)%Z else y in
  let era := (y' / 400)%Z in
  let yoe := (y' - era * 400)%Z in
  let mp := ((m + 9) mod 12)%Z in
  let doy := ((153 * mp + 2) / 5 + d - 1)%Z in
  let doe := (yoe * 365 + yoe / 4 - yoe / 100 + doy)%Z in
  (era * 146097 + doe - 719468)%Z.

Definition obind {A B} (o : option A) (k : A -> option B) : option B :=
  match o with Some a => k a | None => None end.

(** [YYYY-MM-DD]: milliseconds of the start of that day, and the rest. *)
Definition date_part (s : string) : option (Z * string) :=
  obind (number 4 s 0%Z) (fun '(y, r1) =>
  obind (expect "-" r1) (fun r2 =>
  obind (number 2 r2 0%Z) (fun '(m, r3) =>
  obind (expect "-" r3) (fun r4 =>
  obind (number 2 r4 0%Z) (fun '(d, r5) =>
  if ((1 <=? m) && (m <=? 12) && (1 <=? d) && (d <=? 31))%Z
  then Some ((days_from_civil y m d * 86400000)%Z, r5)
  else None))))).

(** [HH:MM:SS]: milliseconds into the day, and the rest. *)
Definition time_part (s : string) : option (Z * string) :=
  obind (number 2 s 0%Z) (fun '(h, r1) =>
  obind (expect ":" r1) (fun r2 =>
  obind (number 2 r2 0%Z) (fun '(mi, r3) =>
  obind (expect ":" r3) (fun r4 =>
  obind (number 2 r4 0%Z) (fun '(sec, r5) =>
  if ((h <=? 23) && (mi <=? 59) && (sec <=? 59))%Z
  then Some (((h * 60 + mi) * 60 + sec) * 1000, r5)%Z
  else None))))).

(** [Z] or [+HH:MM] or [-HH:MM]: the offset from UTC in milliseconds. *)
Definition zone_part (s : string) : option Z :=
  match s with
  | String c r =>
      if Ascii.eqb c "Z" then
        match r with EmptyString => Some 0%Z | _ => None end
      else if Ascii.eqb c "+" || Ascii.eqb c "-" then
        obind (number 2 r 0%Z) (fun '(h, r1) =>
        obind (expect ":" r1) (fun r2 =>
        obind (number 2 r2 0%Z) (fun '(mi, r3) =>
        match r3 with
        | EmptyString =>
            let off := ((h * 60 + mi) * 60000)%Z in
            Some (if Ascii.eqb c "+" then off else (- off)%Z)
        | _ => None
        end)))
      else None
  | EmptyString => None
  end.

(** The time value of an ISO-8601 date or zoned date-time. *)
Definition parse (s : string) : option Z :=
  obind (date_part s) (fun '(day, r) =>
  match r with
  | EmptyString => Some day
  | String c r1 =>
      if Ascii.eqb c "T" then
        obind (time_part r1) (fun '(t, r2) =>
        obind (zone_part r2) (fun off => Some (day + t - off)%Z))
      else None
  end).

End Iso.

Module Sample.

Definition env : Env :=
  mkEnv "sk-test" EmptyString EmptyString
        "crm-sync@funding.iam.gserviceaccount.com" "cron-secret".

(** No language-model key configured. *)
Definition envNoModel : Env :=
  mkEnv EmptyString EmptyString EmptyString
        "crm-sync@funding.iam.gserviceaccount.com" "cron-secret".

Definition request : Request := mkRequest "cron-secret" EmptyString "POST".

Definition clock : string := "2024-06-01T00:00:00.000Z".

(** Collaborators built from the outcome of each service: the mailbox
    recap found for a meeting date and the reply of the language model to
    a prompt; the transcript provider and the relayed transcript mail
    find nothing. *)
Definition servicesOf (auth : Res unit) (cal : Res (list Event))
    (get upd : Res unit) (mode : RangeWrite)
    (recap : string -> string) (reply : string -> Res string) : Services :=
  mkServices auth cal get upd (Ok tt) mode
             (fun _ _ => Ok EmptyString)
             (fun _ _ _ => Ok EmptyString)
             (fun _ meetingDate _ => Ok (recap meetingDate))
             reply
             Iso.parse clock.

(** Collaborators that all answer, with no notes anywhere and a silent
    model. *)
Definition services (events : list Event) (mode : RangeWrite) : Services :=
  servicesOf (Ok tt) (Ok events) (Ok tt) (Ok tt) mode
             (fun _ => EmptyString) (fun _ => Ok EmptyString).

(** The same, with a mailbox recap for every attendee and a model that
    answers every prompt with [reply]. *)
Definition servicesWithModel (events : list Event) (recap reply : string)
  : Services :=
  servicesOf (Ok tt) (Ok events) (Ok tt) (Ok tt) OverwriteCells
             (fun _ => recap) (fun _ => Ok reply).

Definition emptyWorld : World := mkWorld [] EmptyString [].

Definition longNotes : string :=
  "We met the partner team and walked through the deck in detail.".

(** [{"status":"Interested","nextStep":"Schedule follow-up","notes":"Positive"}] *)
Definition interestedObject : string :=
  ("{" ++ quote ++ "status" ++ quote ++ ":" ++ quote ++ "Interested" ++ quote
   ++ "," ++ quote ++ "nextStep" ++ quote ++ ":" ++ quote
   ++ "Schedule follow-up" ++ quote
   ++ "," ++ quote ++ "notes" ++ quote ++ ":" ++ quote ++ "Positive" ++ quote
   ++ "}")%string.

(** The response of the specification's recovery scenario. *)
Definition wrappedReply : string :=
  ("blah blah " ++ interestedObject ++ " trailing")%string.


Definition standupInternalTeam : Event :=
  mkEvent "Weekly Team Standup" EmptyString "bob@internalteam.com"
          ["alice@internalteam.com"; "bob@internalteam.com"]
          "2024-05-06T09:00:00Z" EmptyString.

Definition standupOwnDomain : Event :=
  mkEvent "Weekly Team Standup" EmptyString "jake@viehq.com"
          ["alice@viehq.com"; "jake@viehq.com"]
          "2024-05-06T09:00:00Z" EmptyString.

Definition introCall : Event :=
  mkEvent "Intro call with Acme Ventures" EmptyString "jake@viehq.com"
          ["jane@acmeventures.com"]
          "2024-05-07T15:00:00Z" EmptyString.

Definition followUp : Event :=
  mkEvent "Acme Ventures follow-up" EmptyString "jake@viehq.com"
          ["jane@acmeventures.com"]
          "2024-05-20T16:00:00Z" EmptyString.

(** One event whose attendee list spells the same address twice, in two
    letter cases. *)
Definition mixedCaseCall : Event :=
  mkEvent "Intro call with Acme Ventures" EmptyString "jake@viehq.com"
          ["Jane@AcmeVentures.com"; "jane@acmeventures.com"]
          "2024-05-07T15:00:00Z" EmptyString.

Definition janeRow : Row :=
  ["Jane Doe"; "jane@acmeventures.com"; "Follow-up"; "Send deck";
   "Met at demo day"; "2024-04-01T10:00:00Z"; "2024-03-01T08:00:00.000Z"].

Definition samRow : Row :=
  ["Sam Lee"; "sam@harborcap.com"; "Interested"; "Send term sheet";
   "Wants metrics"; "2024-04-15T10:00:00Z"; "2024-03-02T08:00:00.000Z"].

Definition ownRow : Row :=
  ["Jake"; "jake@viehq.com"; "New Contact"; "Initial outreach"; EmptyString;
   "2024-04-15T10:00:00Z"; "2024-03-02T08:00:00.000Z"].

Definition janeStored : Contact := rowContact janeRow.

(** A world whose sheet holds the given contact rows under the header. *)
Definition worldWith (rows : Sheet) : World :=
  mkWorld (headerRow :: rows) EmptyString [].

(** Jane after a run over [introCall] and [followUp] with no notes. *)
Definition janeMerged : Contact :=
  mkContact "Jane Doe" "jane@acmeventures.com" (JStr "Follow-up")
            (JStr "Send deck") (JStr "Met at demo day")
            "2024-05-20T16:00:00Z" "2024-03-01T08:00:00.000Z".

(** A recap as [getGmailMeetingRecap] returns it: subject, sender and a
    body of more than a hundred characters. *)
Definition recapMail (subject body : string) : string :=
  ("Subject: " ++ subject ++ newline ++ "From: jane@acmeventures.com"
   ++ newline ++ newline ++ body)%string.

Definition firstRecap : string :=
  recapMail "Recap of our intro call"
    "Thanks for the intro call. We met the partner team and walked through the deck in detail; they want a follow-up with the numbers next week.".

Definition secondRecap : string :=
  recapMail "Follow-up notes"
    "Thanks for the follow-up. After the partner meeting they decided to pass for now and will not join this round; we agreed to stay in touch.".

(** [{"status":"Rejected","nextStep":"Close out","notes":"Passed"}] *)
Definition rejectedObject : string :=
  ("{" ++ quote ++ "status" ++ quote ++ ":" ++ quote ++ "Rejected" ++ quote
   ++ "," ++ quote ++ "nextStep" ++ quote ++ ":" ++ quote
   ++ "Close out" ++ quote
   ++ "," ++ quote ++ "notes" ++ quote ++ ":" ++ quote ++ "Passed" ++ quote
   ++ "}")%string.

(** Two meetings with Jane, a recap in the mailbox after each, and a model
    that reads the first recap as interest and the second as a pass. *)
Definition twoMeetings : Services :=
  servicesOf (Ok tt) (Ok [introCall; followUp]) (Ok tt) (Ok tt) OverwriteCells
    (fun meetingDate =>
       if String.eqb meetingDate "2024-05-07T15:00:00Z" then firstRecap
       else secondRecap)
    (fun prompt =>
       if JS.includes prompt "walked through the deck"
       then Ok interestedObject else Ok rejectedObject).

(** The store cannot be read; everything else answers. *)
Definition readFails : Services :=
  servicesOf (Ok tt) (Ok [introCall]) (Throw "Unable to parse range: Contacts!A:G")
             (Ok tt) OverwriteCells
             (fun _ => EmptyString) (fun _ => Ok EmptyString).

(** The contacts write fails; everything else answers. *)
Definition writeFails : Services :=
  servicesOf (Ok tt) (Ok [introCall]) (Ok tt)
             (Throw "The service is currently unavailable.") OverwriteCells
             (fun _ => EmptyString) (fun _ => Ok EmptyString).

(** The write of the sync timestamp fails; everything else answers. *)
Definition markerFails : Services :=
  mkServices (Ok tt) (Ok [introCall]) (Ok tt) (Ok tt)
             (Throw "Unable to parse range: Contacts!H1") OverwriteCells
             (fun _ _ => Ok EmptyString)
             (fun _ _ _ => Ok EmptyString)
             (fun _ _ _ => Ok EmptyString)
             (fun _ => Ok EmptyString)
             Iso.parse clock.

(** Jane as stored after a meeting later than [introCall]. *)
Definition janeLateRow : Row :=
  ["Jane Doe"; "jane@acmeventures.com"; "Follow-up"; "Send deck";
   "Met at demo day"; "2024-05-30T10:00:00Z"; "2024-03-01T08:00:00.000Z"].

Definition pitchToHarbor : Event :=
  mkEvent "Pitch meeting with Harbor Capital" EmptyString "jake@viehq.com"
          ["sam@harborcap.com"]
          "2024-04-15T10:00:00Z" EmptyString.

(** A sheet with its header row and no contact yet. *)
Definition freshWorld : World := mkWorld [headerRow] EmptyString [].

(** The intro call with the calendar owner among the attendees. *)
Definition introWithHost : Event :=
  mkEvent "Intro call with Acme Ventures" EmptyString "jake@viehq.com"
          ["jane@acmeventures.com"; "jake@viehq.com"]
          "2024-05-07T15:00:00Z" EmptyString.

Definition freshJane (spelling : string) : Contact :=
  mkContact "Jane" spelling (JStr "New Contact") (JStr "Initial outreach")
            (JStr EmptyString) "2024-05-07T15:00:00Z" clock.

(** The map the loop builds from [mixedCaseCall]. *)
Definition mixedCaseMap : PMap :=
  [("Jane@AcmeVentures.com", freshJane "Jane@AcmeVentures.com");
   ("jane@acmeventures.com", freshJane "jane@acmeventures.com")].

(** Jane after the run over [twoMeetings]. *)
Definition janeInterested : Contact :=
  mkContact "Jane" "jane@acmeventures.com" (JStr "Interested")
            (JStr "Schedule follow-up") (JStr "Positive")
            "2024-05-20T16:00:00Z" clock.

Definition interestedInsight : Insight :=
  mkInsight (JStr "Interested") (JStr "Schedule follow-up") (JStr "Positive").

Definition rejectedInsight : Insight :=
  mkInsight (JStr "Rejected") (JStr "Close out") (JStr "Passed").

End Sample.

(** * Properties *)

(** ** Strings *)

Lemma trimStart_length (s : string) :
  String.length (JS.trimStart s) <= String.length s.
Proof.
  induction s as [|c r IH]; simpl; [lia|].
  destruct (JS.is_space c); simpl; lia.
Qed.

Lemma trimEnd_length (s : string) :
  String.length (JS.trimEnd s) <= String.length s.
Proof.
  induction s as [|c r IH]; simpl; [lia|].
  destruct (JS.trimEnd r) as [|d t]; simpl in *.
  - destruct (JS.is_space c); simpl; lia.
  - lia.
Qed.

Lemma trim_length (s : string) :
  String.length (JS.trim s) <= String.length s.
Proof.
  unfold JS.trim.
  pose proof (trimEnd_length (JS.trimStart s)).
  pose proof (trimStart_length s). lia.
Qed.

Lemma truthy_nonempty (s : string) : JS.truthy s = false <-> s = EmptyString.
Proof. destruct s; simpl; split; congruence. Qed.

Example getNameFromEmail_jane :
  getNameFromEmail "jane.doe@acmeventures.com" = "Jane Doe".
Proof. reflexivity. Qed.

Example trim_sample : JS.trim "  a b  " = "a b".
Proof. reflexivity. Qed.

(** ** The JSON parser does not run out of fuel *)

Module JsonFacts.

Import Json.

Lemma skip_ws_length (s : string) : String.length (skip_ws s) <= String.length s.
Proof.
  induction s as [|c r IH]; simpl; [lia|].
  destruct (is_json_ws c); simpl; lia.
Qed.

Lemma next_is_length (c : ascii) (s r : string) :
  next_is c s = Some r -> String.length r < String.length s.
Proof.
  unfold next_is. pose proof (skip_ws_length s) as L.
  destruct (skip_ws s) as [|d t]; [discriminate|].
  destruct (Ascii.eqb d c); [|discriminate]. intros [= <-]. simpl in L. lia.
Qed.

Lemma pstring_length_upto (n : nat) (s t rest : string) :
  String.length s <= n ->
  pstring s = Some (t, rest) -> String.length rest < String.length s.
Proof.
  revert s t rest.
  induction n as [|n IH]; intros s t rest Hn.
  - destruct s; [discriminate | simpl in Hn; lia].
  - destruct s as [|c r]; [discriminate|]. simpl in Hn. simpl.
    destruct (Ascii.eqb c dquote); [intros [= _ <-]; lia|].
    destruct (Ascii.eqb c backslash).
    + destruct r as [|e r1]; [discriminate|].
      destruct (Ascii.eqb e "u").
      * destruct r1 as [|h1 [|h2 [|h3 [|h4 r2]]]]; try discriminate.
        destruct (unicode_escape h1 h2 h3 h4); [|discriminate].
        destruct (pstring r2) as [[t' rest']|] eqn:E; [|discriminate].
        intros [= _ <-]. simpl in Hn.
        assert (String.length rest' < String.length r2)
          by (apply (IH r2 t' rest'); [lia | exact E]).
        simpl. lia.
      * destruct (simple_escape e); [|discriminate].
        destruct (pstring r1) as [[t' rest']|] eqn:E; [|discriminate].
        intros [= _ <-]. simpl in Hn.
        assert (String.length rest' < String.length r1)
          by (apply (IH r1 t' rest'); [lia | exact E]).
        simpl. lia.
    + destruct (nat_of_ascii c <? 32)%nat; [discriminate|].
      destruct (pstring r) as [[t' rest']|] eqn:E; [|discriminate].
      intros [= _ <-].
      assert (String.length rest' < String.length r)
        by (apply (IH r t' rest'); [lia | exact E]).
      lia.
Qed.

Lemma pstring_length (s t rest : string) :
  pstring s = Some (t, rest) -> String.length rest < String.length s.
Proof. apply (pstring_length_upto (String.length s)). lia. Qed.

Lemma span_digits_length (s d rest : string) :
  span_digits s = (d, rest) -> String.length rest <= String.length s.
Proof.
  revert d rest. induction s as [|c r IH]; simpl; intros d rest.
  - intros [= _ <-]. simpl. lia.
  - destruct (JS.is_digit c).
    + destruct (span_digits r) as [d' rest'] eqn:E. intros [= _ <-].
      specialize (IH d' rest' eq_refl). lia.
    + intros [= _ <-]. simpl. lia.
Qed.

Lemma pint_length (s i r : string) :
  pint s = Some (i, r) -> String.length r < String.length s.
Proof.
  destruct s as [|c t]; simpl; [discriminate|].
  destruct (Ascii.eqb c "0"); [intros [= _ <-]; lia|].
  destruct (JS.is_digit c); [|discriminate].
  destruct (span_digits t) as [d rest] eqn:E. intros [= _ <-].
  apply span_digits_length in E. lia.
Qed.

Lemma pfrac_length (s f r : string) :
  pfrac s = Some (f, r) -> String.length r <= String.length s.
Proof.
  unfold pfrac.
  destruct s as [|c t]; [intros [= _ <-]; simpl; lia|].
  destruct (Ascii.eqb c ".").
  - destruct (span_digits t) as [d rest] eqn:D.
    destruct d; [discriminate|]. intros [= _ <-].
    apply span_digits_length in D. simpl. lia.
  - intros [= _ <-]. lia.
Qed.

Lemma psign_length (s sg r : string) :
  psign s = (sg, r) -> String.length r <= String.length s.
Proof.
  unfold psign. destruct s as [|c t]; [intros [= _ <-]; simpl; lia|].
  destruct (Ascii.eqb c "+" || Ascii.eqb c "-"); intros [= _ <-]; simpl; lia.
Qed.

Lemma pexp_length (s e r : string) :
  pexp s = Some (e, r) -> String.length r <= String.length s.
Proof.
  unfold pexp.
  destruct s as [|c t]; [intros [= _ <-]; simpl; lia|].
  destruct (Ascii.eqb c "e" || Ascii.eqb c "E").
  - destruct (psign t) as [sg r1] eqn:S.
    destruct (span_digits r1) as [d rest] eqn:D.
    destruct d; [discriminate|]. intros [= _ <-].
    apply span_digits_length in D. apply psign_length in S. simpl. lia.
  - intros [= _ <-]. lia.
Qed.

Lemma pminus_length (s sg r : string) :
  pminus s = (sg, r) -> String.length r <= String.length s.
Proof.
  unfold pminus. destruct s as [|c t]; [intros [= _ <-]; simpl; lia|].
  destruct (Ascii.eqb c "-"); intros [= _ <-]; simpl; lia.
Qed.

Lemma pnumber_length (s lit r : string) :
  pnumber s = Some (lit, r) -> String.length r < String.length s.
Proof.
  unfold pnumber. destruct (pminus s) as [sg r0] eqn:M.
  destruct (pint r0) as [[i r1]|] eqn:I; [|discriminate].
  destruct (pfrac r1) as [[f r2]|] eqn:F; [|discriminate].
  destruct (pexp r2) as [[e r3]|] eqn:E; [|discriminate].
  intros [= _ <-].
  apply pminus_length in M. apply pint_length in I.
  apply pfrac_length in F. apply pexp_length in E. lia.
Qed.

Lemma drop_length (n : nat) (s : string) :
  String.length (drop n s) <= String.length s.
Proof.
  revert s. induction n as [|n IH]; intros [|c r]; simpl; try lia.
  specialize (IH r). lia.
Qed.

Lemma drop_cons_length (n : nat) (c : ascii) (r : string) :
  String.length (drop (S n) (String c r)) <= String.length r.
Proof. simpl. apply drop_length. Qed.

(** Fuel: a parse that succeeds with some fuel succeeds, with the same
    result, with any fuel of at least twice the text it consumed. *)
Lemma fuel_enough (m : nat) :
  (forall s v rest,
     pvalue m s = Some (v, rest) ->
     String.length rest < String.length s
     /\ forall n, 2 * (String.length s - String.length rest) <= n ->
                  pvalue n s = Some (v, rest))
  /\ (forall s vs rest,
        pitems m s = Some (vs, rest) ->
        String.length rest < String.length s
        /\ forall n, 2 * (String.length s - String.length rest) <= n ->
                     pitems n s = Some (vs, rest))
  /\ (forall s ms rest,
        pmembers m s = Some (ms, rest) ->
        String.length rest < String.length s
        /\ forall n, 2 * (String.length s - String.length rest) <= n ->
                     pmembers n s = Some (ms, rest)).
Proof.
  induction m as [|k (IHv & IHi & IHm)].
  - repeat split; intros; discriminate.
  - split; [|split].
    + intros s v rest H.
      pose proof (skip_ws_length s) as Lw.
      destruct (skip_ws s) as [|c r] eqn:Ews;
        [cbn [pvalue] in H; rewrite Ews in H; discriminate|].
      simpl in Lw.
      assert (Hstep : forall n, 0 < n ->
                pvalue n s = match n with
                             | O => None
                             | S k' =>
          if Ascii.eqb c "{" then
            match next_is "}" r with
            | Some r' => Some (JObj [], r')
            | None => match pmembers k' r with
                      | Some (ms, rest) => Some (JObj ms, rest)
                      | None => None
                      end
            end
          else if Ascii.eqb c "[" then
            match next_is "]" r with
            | Some r' => Some (JArr [], r')
            | None => match pitems k' r with
                      | Some (vs, rest) => Some (JArr vs, rest)
                      | None => None
                      end
            end
          else if Ascii.eqb c dquote then
            match pstring r with
            | Some (x, rest) => Some (JStr x, rest)
            | None => None
            end
          else if prefix "true" (String c r) then Some (JBool true, drop 4 (String c r))
          else if prefix "false" (String c r) then Some (JBool false, drop 5 (String c r))
          else if prefix "null" (String c r) then Some (JNull, drop 4 (String c r))
          else match pnumber (String c r) with
               | Some (lit, rest) => Some (JNum lit, rest)
               | None => None
               end
                             end).
      { intros [|k'] Hn; [lia|]. cbn [pvalue]. now rewrite Ews. }
      rewrite (Hstep (S k)) in H by lia.
      destruct (Ascii.eqb c "{") eqn:Eo.
      { destruct (next_is "}" r) as [r'|] eqn:En.
        - injection H as <- <-. apply next_is_length in En.
          split; [lia|]. intros n Hn. rewrite Hstep by lia.
          destruct n; [lia|]. now rewrite ?Eo, ?En.
        - destruct (pmembers k r) as [[ms rest']|] eqn:Em; [|discriminate].
          injection H as <- <-. destruct (IHm r ms rest' Em) as [L F].
          split; [lia|]. intros n Hn. rewrite Hstep by lia.
          destruct n; [lia|]. rewrite ?Eo, ?En. rewrite F by lia. reflexivity. }
      destruct (Ascii.eqb c "[") eqn:Ea.
      { destruct (next_is "]" r) as [r'|] eqn:En.
        - injection H as <- <-. apply next_is_length in En.
          split; [lia|]. intros n Hn. rewrite Hstep by lia.
          destruct n; [lia|]. now rewrite ?Eo, ?Ea, ?En.
        - destruct (pitems k r) as [[vs rest']|] eqn:Ei; [|discriminate].
          injection H as <- <-. destruct (IHi r vs rest' Ei) as [L F].
          split; [lia|]. intros n Hn. rewrite Hstep by lia.
          destruct n; [lia|]. rewrite ?Eo, ?Ea, ?En. rewrite F by lia. reflexivity. }
      assert (Hscalar : forall n, 0 < n -> pvalue n s = pvalue (S k) s).
      { intros n Hn. rewrite Hstep by lia. rewrite (Hstep (S k)) by lia.
        destruct n; [lia|]. now rewrite ?Eo, ?Ea. }
      assert (Hlen : String.length rest < String.length s).
      { destruct (Ascii.eqb c dquote).
        - destruct (pstring r) as [[x rest']|] eqn:Es; [|discriminate].
          injection H as <- <-. apply pstring_length in Es. lia.
        - destruct (prefix "true" (String c r)).
          { injection H as <- <-. pose proof (drop_cons_length 3 c r).
            change (String.length (drop 4 (String c r)) < String.length s). lia. }
          destruct (prefix "false" (String c r)).
          { injection H as <- <-. pose proof (drop_cons_length 4 c r).
            change (String.length (drop 5 (String c r)) < String.length s). lia. }
          destruct (prefix "null" (String c r)).
          { injection H as <- <-. pose proof (drop_cons_length 3 c r).
            change (String.length (drop 4 (String c r)) < String.length s). lia. }
          destruct (pnumber (String c r)) as [[lit rest']|] eqn:En; [|discriminate].
          injection H as <- <-. apply pnumber_length in En. simpl in En. lia. }
      split; [exact Hlen|]. intros n Hn. rewrite Hscalar by lia.
      rewrite (Hstep (S k)) by lia. now rewrite ?Eo, ?Ea.
    + intros s vs rest H. cbn [pitems] in H.
      destruct (pvalue k s) as [[v r]|] eqn:Ev; [|discriminate].
      destruct (IHv s v r Ev) as [Lv Fv].
      destruct (next_is "," r) as [r'|] eqn:Ec.
      * destruct (pitems k r') as [[vs' rest']|] eqn:Ei; [|discriminate].
        injection H as <- <-. destruct (IHi r' vs' rest' Ei) as [Li Fi].
        pose proof (next_is_length _ _ _ Ec) as Lc.
        split; [lia|]. intros n Hn. destruct n; [lia|]. cbn [pitems].
        rewrite Fv by lia. rewrite ?Ec. rewrite Fi by lia. reflexivity.
      * destruct (next_is "]" r) as [r'|] eqn:Eb; [|discriminate].
        injection H as <- <-.
        pose proof (next_is_length _ _ _ Eb) as Lb.
        split; [lia|]. intros n Hn. destruct n; [lia|]. cbn [pitems].
        rewrite Fv by lia. now rewrite ?Ec, ?Eb.
    + intros s ms rest H. cbn [pmembers] in H.
      destruct (next_is dquote s) as [r|] eqn:Eq; [|discriminate].
      destruct (pstring r) as [[key r1]|] eqn:Es; [|discriminate].
      destruct (next_is ":" r1) as [r2|] eqn:Ecol; [|discriminate].
      destruct (pvalue k r2) as [[v r3]|] eqn:Ev; [|discriminate].
      destruct (IHv r2 v r3 Ev) as [Lv Fv].
      pose proof (next_is_length _ _ _ Eq) as L1.
      pose proof (pstring_length _ _ _ Es) as L2.
      pose proof (next_is_length _ _ _ Ecol) as L3.
      destruct (next_is "," r3) as [r4|] eqn:Ec.
      * destruct (pmembers k r4) as [[ms' rest']|] eqn:Em; [|discriminate].
        injection H as <- <-. destruct (IHm r4 ms' rest' Em) as [Lm Fm].
        pose proof (next_is_length _ _ _ Ec) as Lc.
        split; [lia|]. intros n Hn. destruct n; [lia|]. cbn [pmembers].
        rewrite ?Eq, ?Es, ?Ecol. rewrite Fv by lia. rewrite ?Ec.
        rewrite Fm by lia. reflexivity.
      * destruct (next_is "}" r3) as [r4|] eqn:Eb; [|discriminate].
        injection H as <- <-.
        pose proof (next_is_length _ _ _ Eb) as Lb.
        split; [lia|]. intros n Hn. destruct n; [lia|]. cbn [pmembers].
        rewrite ?Eq, ?Es, ?Ecol. rewrite Fv by lia. now rewrite ?Ec, ?Eb.
Qed.

(** [parse] fails only on texts that no amount of fuel parses. *)
Theorem parse_complete (s : string) (m : nat) (v : json) (rest : string) :
  pvalue m s = Some (v, rest) -> skip_ws rest = EmptyString ->
  parse s = Some v.
Proof.
  intros H Hr. destruct (proj1 (fuel_enough m) s v rest H) as [L F].
  unfold parse. rewrite F by lia. now rewrite Hr.
Qed.

(** A text [parse] rejects is rejected with every amount of fuel. *)
Corollary parse_None (s : string) :
  parse s = None ->
  forall m v rest, pvalue m s = Some (v, rest) -> skip_ws rest <> EmptyString.
Proof.
  intros H m v rest Hm Hr. now rewrite (parse_complete s m v rest Hm Hr) in H.
Qed.

End JsonFacts.

(** ** The insight extractor *)

Section InsightExtractor.

Variable env : Env.
Variable svc : Services.

(** The guard of [analyzeWithAI] fires on every text shorter than the
    threshold, trimmed or not. *)
Lemma short_content_guard (notesContent : string) :
  String.length notesContent < minContentLength ->
  (negb (JS.truthy notesContent)
   || (String.length (JS.trim notesContent) <? minContentLength)%nat) = true.
Proof.
  intros H. apply orb_true_iff. right. apply Nat.ltb_lt.
  pose proof (trim_length notesContent). lia.
Qed.

(** C8.  For every note text that is empty or shorter than the threshold
    of 20 characters, [analyzeWithAI] returns the insufficient-content
    insight (status [Manual Review Needed]) and leaves the world, and with
    it the log of prompts sent to the language model, untouched: the
    model is not called. *)
Theorem short_notes_skip_model
    (notesContent contactName sourceType : string) (w : World) :
  notesContent = EmptyString
  \/ String.length notesContent < minContentLength ->
  analyzeWithAI env svc notesContent contactName sourceType w
    = (Ok (insufficientInsight sourceType), w)
  /\ i_status (insufficientInsight sourceType) = JStr "Manual Review Needed"
  /\ List.length
       (prompts (snd (analyzeWithAI env svc notesContent contactName
                                    sourceType w)))
     = List.length (prompts w).
Proof.
  intros H.
  assert (G : (negb (JS.truthy notesContent)
               || (String.length (JS.trim notesContent) <? minContentLength)%nat)
              = true).
  { destruct H as [-> | H]; [reflexivity | now apply short_content_guard]. }
  unfold analyzeWithAI. rewrite G. unfold ret. simpl. auto.
Qed.

(** The threshold is the constant 20. *)
Lemma minContentLength_is_20 : minContentLength = 20.
Proof. reflexivity. Qed.

(** C7 (the code at its failing input).  With no language-model key
    configured, [analyzeWithAI] on a text that passes the length guard
    does not return an insight, it throws: [getAIClient] is called before
    the [try], so its error never reaches the [catch] that builds the
    default insight. *)
Theorem analyze_throws_without_client
    (notesContent contactName sourceType : string) (w : World) :
  JS.truthy (OPENAI_API_KEY env) = false ->
  JS.truthy (GEMINI_API_KEY env) = false ->
  minContentLength <= String.length (JS.trim notesContent) ->
  analyzeWithAI env svc notesContent contactName sourceType w
    = (Throw "No AI API key configured", w).
Proof.
  intros Ho Hg Hlen.
  unfold analyzeWithAI.
  assert (Ht : JS.truthy notesContent = true).
  { destruct notesContent; [simpl in Hlen; unfold minContentLength in Hlen; lia
                           | reflexivity]. }
  rewrite Ht. simpl negb. rewrite orb_false_l.
  apply Nat.ltb_ge in Hlen. rewrite Hlen.
  unfold getAIClient. rewrite Ho, Hg. reflexivity.
Qed.

(** Once a client is configured, [analyzeWithAI] returns an insight
    whatever the language model does. *)
Lemma analyze_returns_with_client
    (notesContent contactName sourceType : string) (w : World) :
  JS.truthy (OPENAI_API_KEY env) = true
  \/ JS.truthy (GEMINI_API_KEY env) = true ->
  exists a w',
    analyzeWithAI env svc notesContent contactName sourceType w = (Ok a, w').
Proof.
  intros Hkey. unfold analyzeWithAI.
  destruct (negb (JS.truthy notesContent)
            || (String.length (JS.trim notesContent) <? minContentLength)%nat).
  - eexists _, _. reflexivity.
  - unfold getAIClient, bind at 1.
    assert (Hc : exists cl,
      (if JS.truthy (OPENAI_API_KEY env) then ret OpenAIClient
       else if JS.truthy (GEMINI_API_KEY env) then ret GeminiClient
       else throw "No AI API key configured") w = (Ok cl, w)).
    { destruct Hkey as [-> | Hg].
      - eexists; reflexivity.
      - destruct (JS.truthy (OPENAI_API_KEY env)); [eexists; reflexivity|].
        rewrite Hg. eexists; reflexivity. }
    destruct Hc as [cl ->].
    unfold try_catch.
    match goal with
    | |- exists a w', (match ?m w with _ => _ end) = _ =>
        destruct (m w) as [[a|msg] w1]
    end.
    + eexists _, _. reflexivity.
    + eexists _, _. reflexivity.
Qed.

(** The earlier revision has no length guard: with a key configured it
    sends its prompt to the model whatever the length of the notes. *)
Lemma earlier_analyze_calls_model (content contactName source : string)
    (w : World) :
  JS.truthy (OPENAI_API_KEY env) = true
  \/ JS.truthy (GEMINI_API_KEY env) = true ->
  prompts (snd (Earlier.analyzeWithAI env svc content contactName source w))
  = prompts w ++ [Earlier.prompt content contactName source].
Proof.
  intros Hkey. unfold Earlier.analyzeWithAI, getAIClient.
  assert (E :
    (if JS.truthy (OPENAI_API_KEY env)
     then
       (if JS.truthy (OPENAI_API_KEY env) then ret OpenAIClient
        else if JS.truthy (GEMINI_API_KEY env) then ret GeminiClient
             else throw "No AI API key configured") ;;;
       text <- call_model svc (Earlier.prompt content contactName source) ;;
       (if JS.truthy text then json_parse text
        else throw "No AI response received")
     else if JS.truthy (GEMINI_API_KEY env)
          then
            (if JS.truthy (OPENAI_API_KEY env) then ret OpenAIClient
             else if JS.truthy (GEMINI_API_KEY env) then ret GeminiClient
                  else throw "No AI API key configured") ;;;
            text <- call_model svc (Earlier.prompt content contactName source) ;;
            (if JS.truthy text then json_parse text
             else throw "No AI response received")
          else throw "No AI response received")
    = (text <- call_model svc (Earlier.prompt content contactName source) ;;
       (if JS.truthy text then json_parse text
        else throw "No AI response received"))).
  { destruct (JS.truthy (OPENAI_API_KEY env)); [reflexivity|].
    destruct Hkey as [Hkey | Hkey]; [discriminate|]. now rewrite Hkey. }
  rewrite E. unfold try_catch, bind, call_model, ret, throw, json_parse.
  destruct (complete svc (Earlier.prompt content contactName source))
    as [text|msg]; [|reflexivity].
  destruct (JS.truthy text); [|reflexivity].
  now destruct (Json.parse text).
Qed.

(** The earlier revision never throws. *)
Lemma earlier_analyze_returns (content contactName source : string) (w : World) :
  exists v w',
    Earlier.analyzeWithAI env svc content contactName source w = (Ok v, w').
Proof.
  unfold Earlier.analyzeWithAI, try_catch.
  match goal with
  | |- exists v w', (match ?m w with _ => _ end) = _ =>
      destruct (m w) as [[a|msg] w1]
  end; eexists _, _; reflexivity.
Qed.












End InsightExtractor.



(** A short note: the model is never called (the scenario of C8). *)
Lemma short_notes_skip_model_witness :
  analyzeWithAI Sample.env
    (Sample.servicesWithModel [] EmptyString Sample.wrappedReply)
    "Thanks, talk soon." "Jane" "Gmail" Sample.emptyWorld
  = (Ok (insufficientInsight "Gmail"), Sample.emptyWorld).
Proof.
  apply (short_notes_skip_model Sample.env
           (Sample.servicesWithModel [] EmptyString Sample.wrappedReply)
           "Thanks, talk soon." "Jane" "Gmail" Sample.emptyWorld).
  right. vm_compute. lia.
Defined.

(** No key configured and a note of sixty-odd characters:
    [analyzeWithAI] throws. *)
Lemma analyze_throws_without_client_witness :
  analyzeWithAI Sample.envNoModel
    (Sample.servicesWithModel [] EmptyString Sample.wrappedReply)
    Sample.longNotes "Jane" "Gmail" Sample.emptyWorld
  = (Throw "No AI API key configured", Sample.emptyWorld).
Proof.
  apply (analyze_throws_without_client Sample.envNoModel
           (Sample.servicesWithModel [] EmptyString Sample.wrappedReply)
           Sample.longNotes "Jane" "Gmail" Sample.emptyWorld).
  - reflexivity.
  - reflexivity.
  - vm_compute; lia.
Defined.

(** ** The event selector *)

Lemma existsb_orb {A} (f g : A -> bool) (l : list A) :
  existsb (fun x => f x || g x) l = existsb f l || existsb g l.
Proof.
  induction l as [|x l IH]; simpl; [reflexivity|].
  rewrite IH. destruct (f x), (g x), (existsb f l); reflexivity.
Qed.

Lemma existsb_false {A} (f : A -> bool) (l : list A) :
  existsb f l = false <-> (forall x, In x l -> f x = false).
Proof.
  split.
  - intros H x Hx. destruct (f x) eqn:E; [|reflexivity].
    rewrite <- H. symmetry. apply existsb_exists. now exists x.
  - intros H. apply not_true_iff_false. intros E.
    apply existsb_exists in E as (x & Hx & Hf). rewrite (H x Hx) in Hf.
    discriminate.
Qed.

Lemma lower_char_idem (c : ascii) : JS.lower_char (JS.lower_char c) = JS.lower_char c.
Proof.
  destruct c as [[] [] [] [] [] [] [] []]; reflexivity.
Qed.

Lemma toLowerCase_idem (s : string) :
  JS.toLowerCase (JS.toLowerCase s) = JS.toLowerCase s.
Proof.
  induction s as [|c r IH]; simpl; [reflexivity|].
  now rewrite lower_char_idem, IH.
Qed.

Lemma test_lower (p : Re.pattern) (s : string) :
  Re.test p (JS.toLowerCase s) = Re.test p s.
Proof. unfold Re.test. now rewrite toLowerCase_idem. Qed.

Lemma lowerAttendees_lower (ev : Event) (e : string) :
  In e (lowerAttendees ev) -> JS.toLowerCase e = e.
Proof.
  unfold lowerAttendees. intros H. apply filter_In in H as [H _].
  apply in_map_iff in H as (a & <- & _). apply toLowerCase_idem.
Qed.

(** An event without keyword, without venture pattern and with attendees
    of the own domain only is filtered out. *)
Lemma internal_event_filtered (ev : Event) :
  mentionsKeyword (summary ev) = false ->
  mentionsKeyword (description ev) = false ->
  matchesVenturePattern (summary ev) = false ->
  matchesVenturePattern (description ev) = false ->
  matchesVenturePattern (organizer_email ev) = false ->
  forallb (fun e => JS.includes e "viehq.com" && negb (matchesVenturePattern e))
          (lowerAttendees ev) = true ->
  matchesFilter ev = false.
Proof.
  intros Hk1 Hk2 Hp1 Hp2 Hp3 Hatt.
  rewrite forallb_forall in Hatt.
  unfold matchesFilter.
  assert (K : hasKeywords ev = false).
  { unfold hasKeywords. cbv zeta. apply existsb_false. intros k Hk.
    unfold mentionsKeyword in Hk1, Hk2. rewrite existsb_false in Hk1, Hk2.
    now rewrite (Hk1 k Hk), (Hk2 k Hk). }
  assert (P : hasVCPatterns ev = false).
  { unfold hasVCPatterns. cbv zeta. apply existsb_false. intros p Hp.
    unfold matchesVenturePattern in Hp1, Hp2, Hp3.
    rewrite existsb_false in Hp1, Hp2, Hp3.
    rewrite !test_lower, (Hp1 p Hp), (Hp2 p Hp), (Hp3 p Hp). simpl.
    rewrite orb_false_r. apply existsb_false. intros e He.
    specialize (Hatt e He). apply andb_true_iff in Hatt as [_ Hn].
    apply negb_true_iff in Hn. unfold matchesVenturePattern in Hn.
    rewrite existsb_false in Hn. now apply Hn. }
  assert (B : hasBizAttendees ev = false).
  { unfold hasBizAttendees. apply existsb_false. intros e He.
    specialize (Hatt e He). apply andb_true_iff in Hatt as [Hi _].
    now rewrite Hi. }
  now rewrite K, P, B.
Qed.

(** The filter of the earlier revision selects the same events. *)
Lemma earlier_filter_same (ev : Event) :
  Earlier.matchesFilter ev = matchesFilter ev.
Proof.
  unfold Earlier.matchesFilter, matchesFilter. f_equal. f_equal.
  unfold Earlier.hasVCPatterns, hasVCPatterns. cbv zeta.
  induction vcPatterns as [|p ps IH]; [reflexivity|].
  cbn [existsb]. rewrite IH. f_equal.
  rewrite existsb_app. cbn [existsb]. rewrite orb_false_r.
  now rewrite orb_assoc.
Qed.

(** C10 (amended).  The selector drops an event titled
    [Weekly Team Standup] whose attendees all belong to the own domain of
    the code, [viehq.com], and which matches no keyword and no venture
    pattern, and it keeps an event titled [Intro call with Acme Ventures]
    with the attendee [jane@acmeventures.com]. *)
Theorem selector_scenario (svc : Services) (standup intro : Event) (w : World) :
  summary standup = "Weekly Team Standup" ->
  mentionsKeyword (description standup) = false ->
  matchesVenturePattern (description standup) = false ->
  matchesVenturePattern (organizer_email standup) = false ->
  forallb (fun e => JS.includes e "viehq.com" && negb (matchesVenturePattern e))
          (lowerAttendees standup) = true ->
  summary intro = "Intro call with Acme Ventures" ->
  In "jane@acmeventures.com" (attendees intro) ->
  calendar_list svc = Ok [standup; intro] ->
  getCalendarEvents svc w = (Ok [intro], w)
  /\ hasKeywords intro = true /\ hasVCPatterns intro = true
  /\ hasBizAttendees intro = true.
Proof.
  intros Hs Hk Hp Ho Hatt Hi Hj Hcal.
  assert (S : matchesFilter standup = false).
  { apply internal_event_filtered; auto; now rewrite Hs. }
  assert (K : hasKeywords intro = true).
  { unfold hasKeywords. cbv zeta. apply existsb_exists. exists "intro".
    split; [unfold keywords; simpl; auto | rewrite Hi; reflexivity]. }
  assert (P : hasVCPatterns intro = true).
  { unfold hasVCPatterns, vcPatterns. cbv zeta. rewrite Hi. reflexivity. }
  assert (B : hasBizAttendees intro = true).
  { unfold hasBizAttendees. apply existsb_exists.
    exists "jane@acmeventures.com". split; [|reflexivity].
    unfold lowerAttendees. apply filter_In. split; [|reflexivity].
    apply in_map_iff. exists "jane@acmeventures.com". now split. }
  split; [|now repeat split].
  assert (I : matchesFilter intro = true) by (unfold matchesFilter; now rewrite K).
  unfold getCalendarEvents, bind, lift, ret. rewrite Hcal.
  cbn [filter]. now rewrite S, I.
Qed.

Lemma selector_scenario_witness :
  getCalendarEvents
    (Sample.services [Sample.standupOwnDomain; Sample.introCall] OverwriteCells)
    Sample.emptyWorld
  = (Ok [Sample.introCall], Sample.emptyWorld).
Proof.
  apply (selector_scenario
           (Sample.services [Sample.standupOwnDomain; Sample.introCall]
                            OverwriteCells)
           Sample.standupOwnDomain Sample.introCall Sample.emptyWorld).
  - reflexivity.
  - reflexivity.
  - reflexivity.
  - reflexivity.
  - reflexivity.
  - reflexivity.
  - simpl. left. reflexivity.
  - reflexivity.
Defined.

(** C10, as stated, fails: the standup whose attendees are all at
    [internalteam.com] matches no keyword and no venture pattern, and the
    selector still keeps it, because [internalteam.com] is not the domain
    the code treats as its own. *)
Lemma internalteam_standup_selected :
  summary Sample.standupInternalTeam = "Weekly Team Standup"
  /\ forallb (fun e => JS.includes e "@internalteam.com")
             (attendees Sample.standupInternalTeam) = true
  /\ hasKeywords Sample.standupInternalTeam = false
  /\ hasVCPatterns Sample.standupInternalTeam = false
  /\ getCalendarEvents
       (Sample.services [Sample.standupInternalTeam; Sample.introCall]
                        OverwriteCells)
       Sample.emptyWorld
     = (Ok [Sample.standupInternalTeam; Sample.introCall], Sample.emptyWorld).
Proof. repeat split. Qed.

(** ** The exclusion policy *)

(** The emails [shouldSkipEmail] rejects: the missing one, those of the
    own domain, the transcript relay, the service account of the sync,
    and those of the listed automation senders. *)
Lemma exclusion_policy (env : Env) (e : string) :
  shouldSkipEmail env e = true
  <-> e = EmptyString
      \/ JS.includes (JS.toLowerCase e) "@viehq.com" = true
      \/ JS.toLowerCase e = "fred@fireflies.ai"
      \/ (GOOGLE_SERVICE_EMAIL env <> EmptyString
          /\ JS.toLowerCase e = JS.toLowerCase (GOOGLE_SERVICE_EMAIL env))
      \/ (exists domain, In domain skipDomains
                         /\ JS.includes (JS.toLowerCase e) domain = true).
Proof.
  unfold shouldSkipEmail, is_service_email.
  destruct e as [|c r]; [simpl; tauto|].
  cbn [JS.truthy negb].
  destruct (JS.includes (JS.toLowerCase (String c r)) "@viehq.com") eqn:E1;
    [simpl; tauto|].
  destruct (String.eqb (JS.toLowerCase (String c r)) "fred@fireflies.ai") eqn:E2.
  { apply String.eqb_eq in E2. simpl. tauto. }
  apply String.eqb_neq in E2.
  destruct (JS.truthy (GOOGLE_SERVICE_EMAIL env)
            && String.eqb (JS.toLowerCase (String c r))
                          (JS.toLowerCase (GOOGLE_SERVICE_EMAIL env))) eqn:E3.
  { apply andb_true_iff in E3 as [T Q]. apply String.eqb_eq in Q.
    simpl. split; [intros _|reflexivity]. right. right. right. left.
    split; [|assumption]. intros Z. rewrite Z in T. discriminate. }
  cbn [orb].
  destruct (existsb (fun domain => JS.includes (JS.toLowerCase (String c r)) domain)
                    skipDomains) eqn:E4.
  { apply existsb_exists in E4. split; [intros _|reflexivity].
    right. right. right. right. exact E4. }
  split; [discriminate|].
  intros [H | [H | [H | [[Hn H] | H]]]]; try discriminate; try contradiction.
  - apply andb_false_iff in E3 as [T | Q].
    + destruct (GOOGLE_SERVICE_EMAIL env); [contradiction | discriminate].
    + apply String.eqb_neq in Q. contradiction.
  - destruct H as (d & Hd & Hi). rewrite existsb_false in E4.
    rewrite (E4 d Hd) in Hi. discriminate.
Qed.

(** ** The in-run contact map *)

Module PMapFacts.

Lemma get_set (k k' : string) (c : Contact) (m : PMap) :
  pm_get k (pm_set k' c m) = if String.eqb k' k then Some c else pm_get k m.
Proof.
  induction m as [|[k0 d] rest IH]; simpl.
  - reflexivity.
  - destruct (String.eqb k0 k') eqn:E0; simpl.
    + apply String.eqb_eq in E0. subst k0.
      destruct (String.eqb k' k); reflexivity.
    + rewrite IH. destruct (String.eqb k0 k) eqn:E1; [|reflexivity].
      apply String.eqb_eq in E1. subst k0. now rewrite String.eqb_sym, E0.
Qed.

Lemma get_set_same (k : string) (c : Contact) (m : PMap) :
  pm_get k (pm_set k c m) = Some c.
Proof. now rewrite get_set, String.eqb_refl. Qed.

Lemma get_set_other (k k' : string) (c : Contact) (m : PMap) :
  k' <> k -> pm_get k (pm_set k' c m) = pm_get k m.
Proof.
  intros H. rewrite get_set. apply String.eqb_neq in H. now rewrite H.
Qed.

Lemma get_In (k : string) (c : Contact) (m : PMap) :
  pm_get k m = Some c -> In (k, c) m.
Proof.
  induction m as [|[k0 d] rest IH]; simpl; [discriminate|].
  destruct (String.eqb k0 k) eqn:E.
  - apply String.eqb_eq in E. intros [= ->]. left. now subst.
  - intros H. right. now apply IH.
Qed.

Lemma get_None_keys (k : string) (m : PMap) :
  pm_get k m = None <-> ~ In k (map fst m).
Proof.
  induction m as [|[k0 d] rest IH]; simpl.
  - tauto.
  - destruct (String.eqb k0 k) eqn:E.
    + apply String.eqb_eq in E. split; [discriminate | intros H; exfalso; auto].
    + apply String.eqb_neq in E. rewrite IH. tauto.
Qed.

Lemma In_get (k : string) (c : Contact) (m : PMap) :
  NoDup (map fst m) -> In (k, c) m -> pm_get k m = Some c.
Proof.
  induction m as [|[k0 d] rest IH]; simpl; [tauto|].
  intros Hnd [H | H].
  - injection H as -> ->. now rewrite String.eqb_refl.
  - inversion Hnd as [|? ? Hnot Hnd']; subst.
    destruct (String.eqb k0 k) eqn:E.
    + apply String.eqb_eq in E. subst k0. exfalso. apply Hnot.
      apply in_map_iff. now exists (k, c).
    + now apply IH.
Qed.

(** [set] on a present key keeps the keys; on an absent key it appends. *)
Lemma keys_set (k : string) (c : Contact) (m : PMap) :
  map fst (pm_set k c m)
  = if pm_has k m then map fst m else map fst m ++ [k].
Proof.
  unfold pm_has. induction m as [|[k0 d] rest IH]; simpl; [reflexivity|].
  destruct (String.eqb k0 k) eqn:E; simpl; [reflexivity|].
  rewrite IH. now destruct (pm_get k rest).
Qed.

Lemma NoDup_set (k : string) (c : Contact) (m : PMap) :
  NoDup (map fst m) -> NoDup (map fst (pm_set k c m)).
Proof.
  intros H. rewrite keys_set. unfold pm_has.
  destruct (pm_get k m) eqn:E; [assumption|].
  apply get_None_keys in E.
  apply NoDup_app; [assumption | repeat constructor; simpl; tauto |].
  intros x Hx [<- | []]. contradiction.
Qed.

(** Writing the contact a key already holds changes nothing. *)
Lemma set_same_value (k : string) (c : Contact) (m : PMap) :
  pm_get k m = Some c -> pm_set k c m = m.
Proof.
  induction m as [|[k0 d] rest IH]; simpl; [discriminate|].
  destruct (String.eqb k0 k) eqn:E.
  - now intros [= ->].
  - intros H. now rewrite IH.
Qed.

End PMapFacts.

(** ** The merge loop follows the step relation *)

Section MergeLoop.

Variable env : Env.
Variable svc : Services.
Variable existing : list Contact.

Lemma getMeetingNotes_returns (k d t : string) (w : World) :
  exists r, getMeetingNotes env svc k d t w = (Ok r, w).
Proof.
  unfold getMeetingNotes, getFirefliesTranscript, bind, try_catch, lift, ret,
    throw.
  destruct (JS.truthy (FIREFLIES_API_KEY env)); simpl;
    [destruct (fireflies_api svc k d) as [x|m]; simpl;
       [destruct (notes_of x "Fireflies API"); [eexists; reflexivity|]|]|];
    (destruct (fireflies_mail svc k d t) as [y|m2]; simpl;
       [destruct (notes_of y "Fireflies Email"); [eexists; reflexivity|]|];
     destruct (gmail_recap svc k d t) as [z|m3]; simpl; eexists; reflexivity).
Qed.

Lemma enriched_refl (c : Contact) : enriched c c.
Proof. now repeat split. Qed.

Lemma enriched_applyInsight (c : Contact) (a : Insight) :
  enriched c (applyInsight c a).
Proof. now repeat split. Qed.

Lemma processAttendee_step (ev : Event) (pc : PMap) (k : string) (w : World) :
  exists pc' w',
    processAttendee env svc existing ev pc k w = (Ok pc', w')
    /\ sighting_step env svc existing (ev, k) pc pc'.
Proof.
  unfold processAttendee, sighting_step.
  destruct (shouldSkipEmail env k); [eexists _, _; split; reflexivity|].
  destruct (pm_get k pc) as [ex|]; [eexists _, _; split; reflexivity|].
  unfold bind at 1, try_catch at 1.
  destruct (getMeetingNotes_returns k (start_dateTime ev) (summary ev) w)
    as [r ->].
  destruct r as [mn|].
  - unfold bind at 1, try_catch, bind at 1.
    destruct (analyzeWithAI env svc (content mn)
                (JS.or_else (name (baseContact svc existing ev k)) k)
                (source mn) w) as [[a|msg] w1]; unfold ret.
    + eexists _, _. split; [reflexivity|].
      eexists. split; [reflexivity | apply enriched_applyInsight].
    + eexists _, _. split; [reflexivity|].
      eexists. split; [reflexivity | apply enriched_refl].
  - unfold bind, ret. eexists _, _. split; [reflexivity|].
    eexists. split; [reflexivity | apply enriched_refl].
Qed.

Lemma steps_app (l1 l2 : list (Event * string)) (pc pc'' : PMap) :
  steps env svc existing (l1 ++ l2) pc pc''
  <-> exists pc', steps env svc existing l1 pc pc'
                  /\ steps env svc existing l2 pc' pc''.
Proof.
  revert pc. induction l1 as [|o l1 IH]; intros pc; simpl.
  - split.
    + intros H. now exists pc.
    + now intros (pc' & -> & H).
  - split.
    + intros (pc1 & Hs & H). apply IH in H as (pc' & H1 & H2).
      exists pc'. split; [now exists pc1 | assumption].
    + intros (pc' & (pc1 & Hs & H1) & H2). exists pc1. split; [assumption|].
      apply IH. now exists pc'.
Qed.

Lemma attendee_loop_steps (ev : Event) (ks : list string) (pc : PMap)
    (w : World) :
  exists pc' w',
    foldM (processAttendee env svc existing ev) ks pc w = (Ok pc', w')
    /\ steps env svc existing (map (pair ev) ks) pc pc'.
Proof.
  revert pc w. induction ks as [|k ks IH]; intros pc w; simpl.
  - eexists _, _. split; reflexivity.
  - destruct (processAttendee_step ev pc k w) as (pc1 & w1 & E & S).
    destruct (IH pc1 w1) as (pc' & w' & E' & S').
    exists pc', w'. split.
    + unfold bind. now rewrite E.
    + now exists pc1.
Qed.

(** The [try] around one event never throws. *)
Lemma processEvent_returns (pc : PMap) (ev : Event) (w : World) :
  exists pc' w',
    processEvent env svc existing pc ev w = (Ok pc', w')
    /\ steps env svc existing (map (pair ev) (attendeeEmails ev)) pc pc'.
Proof.
  unfold processEvent, try_catch.
  destruct (attendee_loop_steps ev (attendeeEmails ev) pc w)
    as (pc' & w' & -> & S).
  now exists pc', w'.
Qed.

Lemma event_loop_steps (evs : list Event) (pc : PMap) (w : World) :
  exists pc' w',
    foldM (processEvent env svc existing) evs pc w = (Ok pc', w')
    /\ steps env svc existing (observations evs) pc pc'.
Proof.
  revert pc w. induction evs as [|ev evs IH]; intros pc w; simpl.
  - eexists _, _. split; reflexivity.
  - destruct (processEvent_returns pc ev w) as (pc1 & w1 & E & S).
    destruct (IH pc1 w1) as (pc' & w' & E' & S').
    exists pc', w'. split.
    + unfold bind. now rewrite E.
    + apply steps_app. now exists pc1.
Qed.

(** The merge loop always returns, and its result is reached by the
    sightings of the run in order. *)
Lemma mergeLoop_returns (events : list Event) (w : World) :
  exists pc w',
    mergeLoop env svc existing events w = (Ok pc, w')
    /\ steps env svc existing (observations events) [] pc.
Proof. apply event_loop_steps. Qed.

Lemma mergeLoop_steps (events : list Event) (pc : PMap) (w w' : World) :
  mergeLoop env svc existing events w = (Ok pc, w') ->
  steps env svc existing (observations events) [] pc.
Proof.
  intros H. destruct (mergeLoop_returns events w) as (pc0 & w0 & E & S).
  rewrite E in H. now injection H as -> _.
Qed.

End MergeLoop.

(** ** Structure of the contact sets *)

Section ContactSets.

Variable env : Env.
Variable svc : Services.

Lemma In_set (k k' : string) (c c' : Contact) (m : PMap) :
  In (k, c) (pm_set k' c' m) -> (k, c) = (k', c') \/ In (k, c) m.
Proof.
  induction m as [|[k0 d] rest IH]; simpl.
  - intros [H | []]. left. now symmetry.
  - destruct (String.eqb k0 k') eqn:E; simpl.
    + apply String.eqb_eq in E. subst k0. intros [H | H]; [left | right; right];
        auto.
    + intros [H | H]; [right; left; assumption|].
      destruct (IH H) as [H' | H']; [left | right; right]; assumption.
Qed.

Lemma skip_empty : shouldSkipEmail env EmptyString = true.
Proof. reflexivity. Qed.

Lemma not_skipped_truthy (k : string) :
  shouldSkipEmail env k = false -> JS.truthy k = true.
Proof. destruct k; [now rewrite skip_empty | reflexivity]. Qed.

Lemma email_advance (ev : Event) (c : Contact) :
  email (advanceLastMeeting svc ev c) = email c.
Proof. unfold advanceLastMeeting. now destruct (date_gt _ _). Qed.

Lemma email_baseContact (existing : list Contact) (ev : Event) (k : string) :
  email (baseContact svc existing ev k) = k.
Proof.
  unfold baseContact. destruct (find (hasEmail k) existing) as [c|] eqn:E.
  - apply find_some in E as [_ E]. now apply String.eqb_eq in E.
  - reflexivity.
Qed.

Lemma wellKeyed_nil : wellKeyed env [].
Proof. split; [constructor | intros k c []]. Qed.

Lemma wellKeyed_set (k : string) (c : Contact) (pc : PMap) :
  wellKeyed env pc -> email c = k -> shouldSkipEmail env k = false ->
  wellKeyed env (pm_set k c pc).
Proof.
  intros [Hnd Hk] He Hs. split; [now apply PMapFacts.NoDup_set|].
  intros k1 c1 H1. apply In_set in H1 as [[= -> ->] | H1]; [now split | now apply Hk].
Qed.

Lemma step_wellKeyed (existing : list Contact) (o : Event * string)
    (pc pc' : PMap) :
  wellKeyed env pc -> sighting_step env svc existing o pc pc' ->
  wellKeyed env pc'.
Proof.
  destruct o as [ev k]. unfold sighting_step. intros W.
  destruct (shouldSkipEmail env k) eqn:Hs; [now intros ->|].
  destruct (pm_get k pc) as [ex|] eqn:G.
  - intros ->. apply wellKeyed_set; auto. rewrite email_advance.
    apply PMapFacts.get_In in G. now apply (proj2 W) in G.
  - intros (c1 & -> & _ & He & _). apply wellKeyed_set; auto.
    now rewrite email_advance, He, email_baseContact.
Qed.

Lemma steps_wellKeyed (existing : list Contact) (obs : list (Event * string))
    (pc pc' : PMap) :
  wellKeyed env pc -> steps env svc existing obs pc pc' -> wellKeyed env pc'.
Proof.
  revert pc. induction obs as [|o obs IH]; simpl; intros pc W.
  - now intros ->.
  - intros (pc1 & S & R). eapply IH; [|exact R]. eapply step_wellKeyed; eauto.
Qed.

(** A key, once in the map, stays. *)
Lemma step_keeps_key (existing : list Contact) (o : Event * string)
    (pc pc' : PMap) (k : string) :
  sighting_step env svc existing o pc pc' ->
  pm_get k pc <> None -> pm_get k pc' <> None.
Proof.
  destruct o as [ev k0]. unfold sighting_step.
  destruct (shouldSkipEmail env k0); [now intros ->|].
  destruct (pm_get k0 pc) as [ex|].
  - intros -> H. rewrite PMapFacts.get_set. now destruct (String.eqb k0 k).
  - intros (c1 & -> & _) H. rewrite PMapFacts.get_set.
    now destruct (String.eqb k0 k).
Qed.

Lemma steps_keep_key (existing : list Contact) (obs : list (Event * string))
    (pc pc' : PMap) (k : string) :
  steps env svc existing obs pc pc' ->
  pm_get k pc <> None -> pm_get k pc' <> None.
Proof.
  revert pc. induction obs as [|o obs IH]; simpl; intros pc.
  - now intros ->.
  - intros (pc1 & S & R) H. eapply IH; [exact R|]. eapply step_keeps_key; eauto.
Qed.

(** Every sighting of an email the policy lets through leaves a contact
    under exactly that spelling. *)
Lemma steps_sighted (existing : list Contact) (obs : list (Event * string))
    (pc pc' : PMap) (ev : Event) (k : string) :
  steps env svc existing obs pc pc' ->
  In (ev, k) obs -> shouldSkipEmail env k = false ->
  pm_get k pc' <> None.
Proof.
  revert pc. induction obs as [|o obs IH]; simpl; intros pc; [tauto|].
  intros (pc1 & S & R) [-> | Hin] Hs.
  - eapply steps_keep_key; [exact R|].
    unfold sighting_step in S. rewrite Hs in S.
    destruct (pm_get k pc) as [ex|].
    + subst pc1. now rewrite PMapFacts.get_set_same.
    + destruct S as (c1 & -> & _). now rewrite PMapFacts.get_set_same.
  - eapply IH; eauto.
Qed.

Lemma In_observations (events : list Event) (ev : Event) (k : string) :
  In (ev, k) (observations events)
  <-> In ev events /\ In k (attendeeEmails ev).
Proof.
  unfold observations. rewrite in_flat_map. split.
  - intros (e & He & H). apply in_map_iff in H as (k' & [= -> ->] & Hk).
    now split.
  - intros [He Hk]. exists ev. split; [assumption|].
    apply in_map_iff. now exists k.
Qed.

(** *** [cleanContacts] *)

Lemma dedupeStep_keyed (acc : PMap) (c : Contact) :
  keyedAndKept env acc -> keyedAndKept env (dedupeStep env svc acc c).
Proof.
  intros [Hnd Hk]. unfold dedupeStep.
  destruct (keepContact env c) eqn:K; [|now split].
  assert (S : keyedAndKept env (pm_set (email c) c acc)).
  { split; [now apply PMapFacts.NoDup_set|].
    intros k1 c1 H1. apply In_set in H1 as [[= -> ->] | H1]; [now split | now apply Hk]. }
  destruct (pm_get (email c) acc) as [ex|]; [|exact S].
  destruct (date_gt _ _); [exact S | now split].
Qed.

Lemma fold_dedupe_keyed (l : list Contact) (acc : PMap) :
  keyedAndKept env acc -> keyedAndKept env (fold_left (dedupeStep env svc) l acc).
Proof.
  revert acc. induction l as [|c l IH]; simpl; intros acc H; [assumption|].
  apply IH. now apply dedupeStep_keyed.
Qed.

Lemma cleanContacts_keyed (l : list Contact) :
  keyedAndKept env (fold_left (dedupeStep env svc) l []).
Proof.
  apply fold_dedupe_keyed. split; [constructor | intros k c []].
Qed.

Lemma keyed_emails (acc : PMap) :
  (forall k c, In (k, c) acc -> email c = k) ->
  map email (pm_values acc) = map fst acc.
Proof.
  unfold pm_values. induction acc as [|[k c] rest IH]; simpl; intros H;
    [reflexivity|].
  rewrite (H k c) by now left. f_equal. apply IH. intros k1 c1 H1.
  apply H. now right.
Qed.

(** The written set never holds two contacts with the same email. *)
Lemma cleanContacts_NoDup (l : list Contact) :
  NoDup (map email (cleanContacts env svc l)).
Proof.
  unfold cleanContacts. destruct (cleanContacts_keyed l) as [Hnd Hk].
  rewrite keyed_emails; [assumption|]. intros k c H. now apply Hk.
Qed.

(** The written set holds no contact the exclusion policy rejects. *)
Lemma cleanContacts_kept (l : list Contact) (c : Contact) :
  In c (cleanContacts env svc l) ->
  JS.truthy (email c) = true /\ shouldSkipEmail env (email c) = false.
Proof.
  unfold cleanContacts, pm_values. intros H.
  apply in_map_iff in H as ([k c'] & E & H). simpl in E. subst c'.
  destruct (cleanContacts_keyed l) as [_ Hk].
  destruct (Hk k c H) as [_ K]. unfold keepContact in K.
  apply andb_true_iff in K as [K1 K2]. now apply negb_true_iff in K2.
Qed.

Lemma set_absent (k : string) (c : Contact) (m : PMap) :
  pm_get k m = None -> pm_set k c m = m ++ [(k, c)].
Proof.
  induction m as [|[k0 d] rest IH]; simpl; [reflexivity|].
  destruct (String.eqb k0 k); [discriminate|]. intros H. now rewrite IH.
Qed.

Lemma get_app_None (k : string) (m1 m2 : PMap) :
  pm_get k m1 = None -> pm_get k (m1 ++ m2) = pm_get k m2.
Proof.
  induction m1 as [|[k0 d] rest IH]; simpl; [reflexivity|].
  destruct (String.eqb k0 k); [discriminate | exact IH].
Qed.

Lemma fold_dedupe_distinct (l : list Contact) (acc : PMap) :
  (forall c, In c l -> keepContact env c = true) ->
  NoDup (map email l) ->
  (forall c, In c l -> pm_get (email c) acc = None) ->
  fold_left (dedupeStep env svc) l acc
  = acc ++ map (fun c => (email c, c)) l.
Proof.
  revert acc. induction l as [|c l IH]; simpl; intros acc Hk Hnd Hout.
  - now rewrite app_nil_r.
  - inversion Hnd as [|? ? Hnot Hnd']; subst.
    unfold dedupeStep at 2. rewrite (Hk c) by now left.
    rewrite (Hout c) by now left.
    rewrite set_absent by (apply Hout; now left).
    rewrite IH; auto.
    + now rewrite <- app_assoc.
    + intros c1 H1. rewrite get_app_None by (apply Hout; now right).
      simpl. destruct (String.eqb (email c) (email c1)) eqn:E; [|reflexivity].
      apply String.eqb_eq in E. exfalso. apply Hnot. rewrite E.
      now apply in_map.
Qed.

(** On the values of a well-keyed map the deduplication of
    [updateSheetContacts] changes nothing. *)
Lemma cleanContacts_wellKeyed (pc : PMap) :
  wellKeyed env pc -> cleanContacts env svc (pm_values pc) = pm_values pc.
Proof.
  intros [Hnd Hk]. unfold cleanContacts.
  assert (He : forall k c, In (k, c) pc -> email c = k)
    by (intros k c H; now apply Hk).
  rewrite fold_dedupe_distinct.
  - simpl. unfold pm_values. rewrite !map_map. simpl. reflexivity.
  - intros c H. unfold pm_values in H. apply in_map_iff in H as ([k c'] & E & H).
    simpl in E. subst c'. destruct (Hk k c H) as [E S]. unfold keepContact.
    rewrite E, S. now rewrite (not_skipped_truthy k S).
  - now rewrite keyed_emails.
  - reflexivity.
Qed.

End ContactSets.

(** ** [lastMeeting] only moves forward *)

Section LastMeeting.

Variable env : Env.
Variable svc : Services.
Variable existing : list Contact.

Lemma date_le_refl (t : Z) : date_le (Some t) (Some t).
Proof. simpl. lia. Qed.

Lemma date_le_trans (a b c : option Z) :
  date_le a b -> date_le b c -> date_le a c.
Proof. destruct a, b, c; simpl; try tauto. lia. Qed.

Lemma newDate_Some_or0 (s : string) (t : Z) :
  newDate svc s = Some t -> newDateOr0 svc s = Some t.
Proof.
  unfold newDate, newDateOr0. now destruct (JS.truthy s).
Qed.

(** The comparison and assignment at the end of a sighting leaves the
    later of the two times. *)
Lemma advance_time (ev : Event) (c : Contact) (t0 t : Z) :
  lastMeetingTime svc c = Some t0 ->
  newDate svc (eventStart ev) = Some t ->
  lastMeetingTime svc (advanceLastMeeting svc ev c) = Some (Z.max t0 t).
Proof.
  unfold lastMeetingTime, advanceLastMeeting. intros H0 Ht.
  rewrite H0, Ht. simpl. destruct (Z.ltb_spec t0 t).
  - simpl. rewrite (newDate_Some_or0 _ _ Ht). f_equal. lia.
  - rewrite H0. f_equal. lia.
Qed.

Lemma baseContact_time (ev : Event) (k : string) (t : Z) :
  validStore svc existing = true ->
  newDate svc (eventStart ev) = Some t ->
  exists tb,
    lastMeetingTime svc (baseContact svc existing ev k) = Some tb
    /\ (forall c0, find (hasEmail k) existing = Some c0 ->
                   lastMeetingTime svc c0 = Some tb)
    /\ (find (hasEmail k) existing = None -> tb = t).
Proof.
  intros Hv Ht. unfold baseContact.
  destruct (find (hasEmail k) existing) as [c0|] eqn:F.
  - apply find_some in F as [Hin _].
    unfold validStore in Hv. rewrite forallb_forall in Hv.
    specialize (Hv c0 Hin).
    destruct (lastMeetingTime svc c0) as [tb|] eqn:E; [|discriminate].
    exists tb. split; [reflexivity|]. split; [now intros c1 [= <-] | discriminate].
  - exists t. split; [|split; [discriminate | reflexivity]].
    unfold lastMeetingTime, newContact. simpl.
    now apply newDate_Some_or0.
Qed.

Lemma timely_set (seen : list (Event * string)) (ev : Event) (k : string)
    (pc : PMap) (c' : Contact) (t0 t : Z) :
  timely env svc existing seen pc ->
  shouldSkipEmail env k = false ->
  email c' = k ->
  newDate svc (eventStart ev) = Some t ->
  lastMeetingTime svc c' = Some (Z.max t0 t) ->
  (forall c0, find (hasEmail k) existing = Some c0 ->
              date_le (lastMeetingTime svc c0) (Some t0)) ->
  (forall ev1, In (ev1, k) seen ->
               date_le (newDate svc (eventStart ev1)) (Some t0)) ->
  ((exists c0, find (hasEmail k) existing = Some c0
               /\ lastMeetingTime svc c0 = Some t0)
   \/ (exists ev1, In (ev1, k) ((ev, k) :: seen)
                   /\ newDate svc (eventStart ev1) = Some t0)) ->
  timely env svc existing ((ev, k) :: seen) (pm_set k c' pc).
Proof.
  intros (W & P & T) Hs He Et A B0 O0 Att0.
  split; [now apply wellKeyed_set|]. split.
  - intros ev1 k1 Hin Hs1. rewrite PMapFacts.get_set.
    destruct (String.eqb k k1) eqn:E; [discriminate|].
    destruct Hin as [[= <- <-] | Hin]; [|eauto].
    now rewrite String.eqb_refl in E.
  - intros k1 c G1. rewrite PMapFacts.get_set in G1.
    destruct (String.eqb k k1) eqn:E.
    + apply String.eqb_eq in E. subst k1. injection G1 as <-.
      rewrite A. split; [discriminate|]. split; [|split].
      * intros c0 F. eapply date_le_trans; [now apply B0|]. simpl. lia.
      * intros ev1 [[= <-] | Hin].
        -- rewrite Et. simpl. lia.
        -- eapply date_le_trans; [now apply O0|]. simpl. lia.
      * destruct (Z.max_spec t0 t) as [[_ ->] | [_ ->]].
        -- right. exists ev. split; [now left | now rewrite Et].
        -- destruct Att0 as [(c0 & F & E0) | (ev1 & Hin & E1)].
           ++ left. exists c0. split; [assumption | now rewrite E0].
           ++ right. exists ev1. split; [assumption | now rewrite E1].
    + destruct (T k1 c G1) as (V & B & O & Att).
      split; [assumption|]. split; [assumption|]. split.
      * intros ev1 [[= <- <-] | Hin]; [|now apply O].
        now rewrite String.eqb_refl in E.
      * destruct Att as [Att | (ev1 & Hin & E1)]; [now left|].
        right. exists ev1. split; [now right | assumption].
Qed.

Lemma step_timely (seen : list (Event * string)) (ev : Event) (k : string)
    (pc pc' : PMap) :
  validStore svc existing = true ->
  isValid (newDate svc (eventStart ev)) = true ->
  timely env svc existing seen pc ->
  sighting_step env svc existing (ev, k) pc pc' ->
  timely env svc existing ((ev, k) :: seen) pc'.
Proof.
  intros Hstore Hev H S.
  destruct (newDate svc (eventStart ev)) as [t|] eqn:Et; [|discriminate].
  unfold sighting_step in S.
  destruct (shouldSkipEmail env k) eqn:Hs.
  - subst pc'. destruct H as (W & P & T). split; [assumption|]. split.
    + intros ev1 k1 [[= <- <-] | Hin] Hs1; [congruence | eauto].
    + intros k1 c G. destruct (T k1 c G) as (V & B & O & Att).
      split; [assumption|]. split; [assumption|]. split.
      * intros ev1 [[= <- <-] | Hin]; [|now apply O].
        apply PMapFacts.get_In in G. apply (proj2 W) in G. destruct G.
        congruence.
      * destruct Att as [Att | (ev1 & Hin & E1)]; [now left|].
        right. exists ev1. split; [now right | assumption].
  - destruct (pm_get k pc) as [ex|] eqn:G.
    + subst pc'. pose proof H as (W & P & T).
      destruct (T k ex G) as (V & B & O & Att).
      destruct (lastMeetingTime svc ex) as [t0|] eqn:E0; [|congruence].
      apply (timely_set seen ev k pc _ t0 t); auto.
      * rewrite email_advance. apply PMapFacts.get_In in G.
        now apply (proj2 W) in G.
      * now apply advance_time.
      * destruct Att as [(c0 & F & E1) | (ev1 & Hin & E1)].
        -- left. exists c0. split; [assumption | now rewrite <- E1].
        -- right. exists ev1. split; [now right | now rewrite <- E1].
    + destruct S as (c1 & -> & Hn & He & Hl & Hc).
      destruct (baseContact_time ev k t Hstore Et) as (tb & Eb & Fb & Nb).
      pose proof H as (W & P & T).
      apply (timely_set seen ev k pc _ tb t); auto.
      * now rewrite email_advance, He, email_baseContact.
      * apply advance_time; [|assumption].
        unfold lastMeetingTime in *. now rewrite Hl.
      * intros c0 F. rewrite (Fb c0 F). apply date_le_refl.
      * intros ev1 Hin. exfalso. now apply (P ev1 k Hin Hs).
      * destruct (find (hasEmail k) existing) as [c0|] eqn:F.
        -- left. exists c0. split; [reflexivity | now apply Fb].
        -- right. exists ev. split; [now left|]. rewrite Et. f_equal.
           symmetry. now apply Nb.
Qed.

Lemma steps_timely (obs seen : list (Event * string)) (pc pc' : PMap) :
  validStore svc existing = true ->
  (forall ev k, In (ev, k) obs -> isValid (newDate svc (eventStart ev)) = true) ->
  timely env svc existing seen pc ->
  steps env svc existing obs pc pc' ->
  timely env svc existing (rev obs ++ seen) pc'.
Proof.
  intros Hstore. revert seen pc.
  induction obs as [|[ev k] obs IH]; simpl; intros seen pc Hv H S.
  - now subst pc'.
  - destruct S as (pc1 & S1 & R). rewrite <- app_assoc. simpl.
    apply (IH ((ev, k) :: seen) pc1).
    + intros ev1 k1 H1. apply (Hv ev1 k1). now right.
    + exact (step_timely seen ev k pc pc1 Hstore
               (Hv ev k (or_introl eq_refl)) H S1).
    + exact R.
Qed.

Lemma timely_nil : timely env svc existing [] [].
Proof.
  split; [apply wellKeyed_nil|]. split; [intros ev k []|].
  intros k c G. discriminate.
Qed.

(** The merge loop and the cleaning of its map, started from the
    contacts [existing]: when the event starts and the [lastMeeting]
    values of [existing] are dates, every contact of the cleaned set has
    a [lastMeeting] no earlier than the one of the record found for its
    email in [existing] and no earlier than the start of any event that
    lists its email, and it is one of these times. *)
Lemma merged_lastMeeting_latest
    (events : list Event) (pc : PMap) (w w' : World) (c : Contact) :
  validStarts svc events = true ->
  validStore svc existing = true ->
  mergeLoop env svc existing events w = (Ok pc, w') ->
  In c (cleanContacts env svc (pm_values pc)) ->
  (forall c0, find (hasEmail (email c)) existing = Some c0 ->
              date_le (lastMeetingTime svc c0) (lastMeetingTime svc c))
  /\ (forall ev, In ev events -> In (email c) (attendeeEmails ev) ->
                 date_le (newDate svc (eventStart ev)) (lastMeetingTime svc c))
  /\ ((exists c0, find (hasEmail (email c)) existing = Some c0
                  /\ lastMeetingTime svc c = lastMeetingTime svc c0)
      \/ (exists ev, In ev events /\ In (email c) (attendeeEmails ev)
                     /\ lastMeetingTime svc c = newDate svc (eventStart ev))).
Proof.
  intros Hev Hstore Hrun Hin.
  apply mergeLoop_steps in Hrun.
  assert (Hobs : forall ev k, In (ev, k) (observations events) ->
                              isValid (newDate svc (eventStart ev)) = true).
  { intros ev k H. apply In_observations in H as [H _].
    unfold validStarts in Hev. rewrite forallb_forall in Hev. now apply Hev. }
  pose proof (steps_timely _ [] [] pc Hstore Hobs timely_nil Hrun)
    as (W & P & T).
  rewrite cleanContacts_wellKeyed in Hin by assumption.
  unfold pm_values in Hin. apply in_map_iff in Hin as ([k c1] & E & Hin).
  simpl in E. subst c1.
  destruct (proj2 W k c Hin) as [Hk _]. rewrite Hk.
  apply PMapFacts.In_get in Hin; [|exact (proj1 W)].
  destruct (T k c Hin) as (V & B & O & Att). split; [assumption|]. split.
  - intros ev He Ha. apply O. rewrite app_nil_r. apply -> in_rev.
    apply In_observations. now split.
  - destruct Att as [Att | (ev & Hev1 & E1)]; [now left|].
    right. exists ev. rewrite app_nil_r in Hev1. apply in_rev in Hev1.
    apply In_observations in Hev1 as [H1 H2]. now repeat split.
Qed.

End LastMeeting.

(** ** The handler, step by step *)

Section Handler.

Variable env : Env.
Variable svc : Services.

Lemma keeps_ret {A} (a : A) : keepsStore (ret a).
Proof. intros w. now split. Qed.

Lemma keeps_throw {A} (msg : string) : keepsStore (@throw A msg).
Proof. intros w. now split. Qed.

Lemma keeps_lift {A} (r : Res A) : keepsStore (lift r).
Proof. intros w. now split. Qed.

Lemma keeps_bind {A B} (m : M A) (k : A -> M B) :
  keepsStore m -> (forall a, keepsStore (k a)) -> keepsStore (bind m k).
Proof.
  intros Hm Hk w. unfold bind. specialize (Hm w).
  destruct (m w) as [[a|msg] w1]; simpl in *.
  - destruct (Hk a w1) as [H1 H2]. destruct Hm as [H3 H4].
    split; congruence.
  - assumption.
Qed.

Lemma keeps_try_catch {A} (m : M A) (h : string -> M A) :
  keepsStore m -> (forall msg, keepsStore (h msg)) -> keepsStore (try_catch m h).
Proof.
  intros Hm Hh w. unfold try_catch. specialize (Hm w).
  destruct (m w) as [[a|msg] w1]; simpl in *.
  - assumption.
  - destruct (Hh msg w1) as [H1 H2]. destruct Hm as [H3 H4].
    split; congruence.
Qed.

Lemma keeps_call_model (prompt : string) : keepsStore (call_model svc prompt).
Proof. intros w. now split. Qed.

Lemma keeps_json_parse (s : string) : keepsStore (json_parse s).
Proof.
  unfold json_parse. destruct (Json.parse s); [apply keeps_ret | apply keeps_throw].
Qed.

Lemma keeps_member (key : string) (v : json) : keepsStore (member key v).
Proof.
  destruct v; simpl; try apply keeps_ret. apply keeps_throw.
Qed.

Lemma keeps_getAIClient : keepsStore (getAIClient env).
Proof.
  unfold getAIClient.
  destruct (JS.truthy (OPENAI_API_KEY env)); [apply keeps_ret|].
  destruct (JS.truthy (GEMINI_API_KEY env)); [apply keeps_ret | apply keeps_throw].
Qed.

Lemma keeps_analyzeWithAI (notesContent contactName sourceType : string) :
  keepsStore (analyzeWithAI env svc notesContent contactName sourceType).
Proof.
  unfold analyzeWithAI.
  destruct (negb (JS.truthy notesContent) || _); [apply keeps_ret|].
  apply keeps_bind; [apply keeps_getAIClient|]. intros _.
  apply keeps_try_catch; [|intros; apply keeps_ret].
  apply keeps_bind.
  - destruct (JS.truthy (OPENAI_API_KEY env)); [apply keeps_call_model|].
    destruct (JS.truthy (GEMINI_API_KEY env));
      [apply keeps_call_model | apply keeps_throw].
  - intros text. destruct (negb (JS.truthy text)); [apply keeps_throw|].
    apply keeps_bind.
    + apply keeps_try_catch; [apply keeps_json_parse|]. intros _.
      destruct (Re.match_braces text); [apply keeps_json_parse | apply keeps_throw].
    + intros pA. repeat (apply keeps_bind; [apply keeps_member | intros ?]).
      apply keeps_ret.
Qed.

Lemma keeps_processAttendee (existing : list Contact) (ev : Event)
    (pc : PMap) (k : string) :
  keepsStore (processAttendee env svc existing ev pc k).
Proof.
  unfold processAttendee.
  destruct (shouldSkipEmail env k); [apply keeps_ret|].
  destruct (pm_get k pc); [apply keeps_ret|].
  apply keeps_bind.
  - intros w.
    unfold try_catch.
    destruct (getMeetingNotes_returns env svc k (start_dateTime ev)
                (summary ev) w) as [r ->]. now split.
  - intros [mn|]; (apply keeps_bind; [|intros; apply keeps_ret]).
    + apply keeps_try_catch; [|intros; apply keeps_ret].
      apply keeps_bind; [apply keeps_analyzeWithAI | intros; apply keeps_ret].
    + apply keeps_ret.
Qed.

Lemma keeps_foldM {A B} (body : B -> A -> M B) (xs : list A) (acc : B) :
  (forall b a, keepsStore (body b a)) -> keepsStore (foldM body xs acc).
Proof.
  intros H. revert acc. induction xs as [|x xs IH]; intros acc; simpl.
  - apply keeps_ret.
  - apply keeps_bind; [apply H | intros; apply IH].
Qed.

Lemma keeps_mergeLoop (existing : list Contact) (events : list Event) :
  keepsStore (mergeLoop env svc existing events).
Proof.
  unfold mergeLoop. apply keeps_foldM. intros pc ev. unfold processEvent.
  apply keeps_try_catch; [|intros; apply keeps_ret].
  apply keeps_foldM. intros. apply keeps_processAttendee.
Qed.

Lemma getSheetContacts_reads (w : World) :
  getSheetContacts env svc w = (Ok (readContacts env svc w), w).
Proof.
  unfold getSheetContacts, readContacts, try_catch, bind, sheets_values_get, ret.
  now destruct (sheet_get svc).
Qed.

Lemma authorizedPost_checks (req : Request) :
  authorizedPost env req = true ->
  (negb (JS.truthy (JS.or_else (header_cron_secret req) (body_cron_secret req)))
   || negb (String.eqb (JS.or_else (header_cron_secret req)
                                   (body_cron_secret req))
                       (CRON_SECRET env))) = false
  /\ negb (String.eqb (method req) "POST") = false.
Proof.
  unfold authorizedPost. cbv zeta. intros H.
  apply andb_true_iff in H as [H Hm]. apply andb_true_iff in H as [Ht He].
  now rewrite Ht, He, Hm.
Qed.

(** The handler on an authorised [POST], spelled out along its steps. *)
Lemma handler_unfolded (req : Request) (w : World) :
  authorizedPost env req = true ->
  handler env svc req w =
  match authorize svc with
  | Throw msg => (Ok (SyncFailed msg (now svc)), w)
  | Ok _ =>
      match calendar_list svc with
      | Throw msg => (Ok (SyncFailed msg (now svc)), w)
      | Ok allEvents =>
          let events := filter matchesFilter allEvents in
          match mergeLoop env svc (readContacts env svc w) events w with
          | (Throw msg, w1) => (Ok (SyncFailed msg (now svc)), w1)
          | (Ok pc, w1) =>
              if (0 <? List.length (pm_values pc))%nat then
                match sheet_update svc with
                | Throw msg => (Ok (SyncFailed msg (now svc)), w1)
                | Ok _ =>
                    (Ok (SyncCompleted (List.length (pm_values pc))
                                       (List.length events) (now svc)),
                     recordMarker svc
                       (mkWorld (write_rows (range_write svc)
                                   (writtenRows env svc pc) (sheet w1))
                                (marker w1) (prompts w1)))
                end
              else
                (Ok (SyncCompleted (List.length (pm_values pc))
                                   (List.length events) (now svc)),
                 recordMarker svc w1)
          end
      end
  end.
Proof.
  intros Ha. destruct (authorizedPost_checks req Ha) as [H1 H2].
  unfold handler. cbv zeta. rewrite H1, H2.
  unfold try_catch, bind at 1, lift.
  destruct (authorize svc) as [u|msg]; [|reflexivity].
  unfold bind at 1, getCalendarEvents, bind at 1, lift, ret.
  destruct (calendar_list svc) as [allEvents|msg]; [|reflexivity].
  unfold bind at 1. rewrite getSheetContacts_reads.
  unfold bind at 1.
  destruct (mergeLoop env svc (readContacts env svc w)
              (filter matchesFilter allEvents) w) as [[pc|msg] w1];
    [|reflexivity].
  unfold bind at 1.
  destruct (0 <? List.length (pm_values pc))%nat.
  - unfold updateSheetContacts, sheets_values_update, writtenRows.
    destruct (sheet_update svc) as [u2|msg]; [|reflexivity].
    unfold bind, recordSyncTimestamp, try_catch, recordMarker, ret.
    now destruct (marker_update svc).
  - unfold bind, recordSyncTimestamp, try_catch, recordMarker, ret.
    now destruct (marker_update svc).
Qed.

End Handler.

(** ** Where the written contacts come from *)

Section Provenance.

Variable env : Env.
Variable svc : Services.
Variable existing : list Contact.

Lemma advance_fields (ev : Event) (c : Contact) :
  name (advanceLastMeeting svc ev c) = name c
  /\ createdAt (advanceLastMeeting svc ev c) = createdAt c
  /\ status (advanceLastMeeting svc ev c) = status c
  /\ nextStep (advanceLastMeeting svc ev c) = nextStep c
  /\ notes (advanceLastMeeting svc ev c) = notes c.
Proof. unfold advanceLastMeeting. now destruct (date_gt _ _). Qed.

Lemma step_traced (seen : list (Event * string)) (ev : Event) (k : string)
    (pc pc' : PMap) :
  traced existing seen pc ->
  sighting_step env svc existing (ev, k) pc pc' ->
  traced existing ((ev, k) :: seen) pc'.
Proof.
  intros T S.
  assert (Old : forall k1 c, pm_get k1 pc = Some c ->
            (exists ev1, In (ev1, k1) ((ev, k) :: seen))
            /\ (forall c0, find (hasEmail k1) existing = Some c0 ->
                           name c = name c0 /\ createdAt c = createdAt c0)).
  { intros k1 c G. destruct (T k1 c G) as [[ev1 H1] H2].
    split; [exists ev1; now right | assumption]. }
  unfold sighting_step in S.
  destruct (shouldSkipEmail env k); [now subst pc'|].
  destruct (pm_get k pc) as [ex|] eqn:G.
  - subst pc'. intros k1 c G1. rewrite PMapFacts.get_set in G1.
    destruct (String.eqb k k1) eqn:E; [|now apply Old].
    apply String.eqb_eq in E. subst k1. injection G1 as <-.
    split; [exists ev; now left|]. intros c0 F.
    destruct (advance_fields ev ex) as (-> & -> & _).
    now apply (proj2 (T k ex G)).
  - destruct S as (c1 & -> & Hn & He & Hl & Hc).
    intros k1 c G1. rewrite PMapFacts.get_set in G1.
    destruct (String.eqb k k1) eqn:E; [|now apply Old].
    apply String.eqb_eq in E. subst k1. injection G1 as <-.
    split; [exists ev; now left|]. intros c0 F.
    destruct (advance_fields ev c1) as (-> & -> & _).
    rewrite Hn, Hc. unfold baseContact. now rewrite F.
Qed.

Lemma steps_traced (obs seen : list (Event * string)) (pc pc' : PMap) :
  traced existing seen pc ->
  steps env svc existing obs pc pc' ->
  traced existing (rev obs ++ seen) pc'.
Proof.
  revert seen pc. induction obs as [|[ev k] obs IH]; simpl; intros seen pc T S.
  - now subst pc'.
  - destruct S as (pc1 & S1 & R). rewrite <- app_assoc. simpl.
    apply (IH ((ev, k) :: seen) pc1); [|exact R].
    exact (step_traced seen ev k pc pc1 T S1).
Qed.

Lemma traced_nil : traced existing [] [].
Proof. intros k c G. discriminate. Qed.

(** The emails of the contacts a run writes are the spellings, as the
    calendar has them, of the attendees that pass the exclusion policy. *)
Lemma written_emails (events : list Event) (pc : PMap) (w w' : World)
    (k : string) :
  mergeLoop env svc existing events w = (Ok pc, w') ->
  In k (map email (cleanContacts env svc (pm_values pc)))
  <-> shouldSkipEmail env k = false
      /\ exists ev, In ev events /\ In k (attendeeEmails ev).
Proof.
  intros Hrun. apply mergeLoop_steps in Hrun.
  pose proof (steps_wellKeyed env svc existing _ _ _ (wellKeyed_nil env) Hrun)
    as W.
  pose proof (steps_traced _ [] [] pc traced_nil Hrun) as T.
  rewrite app_nil_r in T.
  rewrite (cleanContacts_wellKeyed env svc pc W).
  rewrite (keyed_emails pc) by (intros k1 c1 H1; now apply (proj2 W)).
  split.
  - intros Hin.
    destruct (pm_get k pc) as [c|] eqn:G;
      [|apply PMapFacts.get_None_keys in G; contradiction].
    pose proof (PMapFacts.get_In _ _ _ G) as Hc.
    split; [now apply (proj2 W) in Hc|].
    destruct (proj1 (T k c G)) as [ev Hev]. apply in_rev in Hev.
    apply In_observations in Hev as [H1 H2]. now exists ev.
  - intros [Hs (ev & He & Hk)].
    assert (Ho : In (ev, k) (observations events))
      by (apply In_observations; now split).
    pose proof (steps_sighted env svc existing _ _ _ ev k Hrun Ho Hs) as P.
    destruct (pm_get k pc) as [c|] eqn:G; [|congruence].
    apply PMapFacts.get_In in G. apply in_map_iff. now exists (k, c).
Qed.

(** C3 (amended).  The set a run writes holds exactly one contact per
    email string as the calendar spells it: no two written contacts share
    an email, and the written emails are the spellings of the attendees
    that pass the exclusion policy, compared character by character with
    no case folding. *)
Theorem one_contact_per_spelling
    (events : list Event) (pc : PMap) (w w' : World) :
  mergeLoop env svc existing events w = (Ok pc, w') ->
  NoDup (map email (cleanContacts env svc (pm_values pc)))
  /\ (forall k, In k (map email (cleanContacts env svc (pm_values pc)))
               <-> shouldSkipEmail env k = false
                   /\ exists ev, In ev events /\ In k (attendeeEmails ev)).
Proof.
  intros Hrun. split; [apply cleanContacts_NoDup|].
  intros k. now apply (written_emails events pc w w').
Qed.

End Provenance.

(** ** What a run does to the sheet *)

Section Runs.

Variable env : Env.
Variable svc : Services.

Lemma handler_rejected (req : Request) (w : World) :
  authorizedPost env req = false ->
  handler env svc req w = (Ok Unauthorized, w)
  \/ handler env svc req w = (Ok MethodNotAllowed, w).
Proof.
  unfold authorizedPost, handler. cbv zeta.
  destruct (JS.truthy (JS.or_else (header_cron_secret req)
                                  (body_cron_secret req))); simpl;
    [|now left].
  destruct (String.eqb (JS.or_else (header_cron_secret req)
                                   (body_cron_secret req)) (CRON_SECRET env));
    simpl; [|now left].
  destruct (String.eqb (method req) "POST"); simpl; [discriminate | now right].
Qed.

Lemma recordMarker_sheet (w : World) : sheet (recordMarker svc w) = sheet w.
Proof. unfold recordMarker. now destruct (marker_update svc). Qed.

(** A completed run, read backwards: the events it selected, the map its
    loop built, and the sheet it left. *)
Lemma handler_completed (req : Request) (w w' : World) (n e : nat)
    (ts : string) :
  handler env svc req w = (Ok (SyncCompleted n e ts), w') ->
  exists allEvents pc w1,
    calendar_list svc = Ok allEvents
    /\ mergeLoop env svc (readContacts env svc w)
                 (filter matchesFilter allEvents) w = (Ok pc, w1)
    /\ n = List.length pc
    /\ sheet w' = match pc with
                  | [] => sheet w
                  | _ => write_rows (range_write svc) (writtenRows env svc pc)
                                    (sheet w)
                  end.
Proof.
  intros H.
  destruct (authorizedPost env req) eqn:Ha.
  2:{ destruct (handler_rejected req w Ha) as [R | R]; rewrite R in H;
        discriminate. }
  rewrite (handler_unfolded env svc req w Ha) in H.
  destruct (authorize svc) as [u|msg]; [|discriminate].
  destruct (calendar_list svc) as [allEvents|msg] eqn:C; [|discriminate].
  cbv zeta in H.
  pose proof (keeps_mergeLoop env svc (readContacts env svc w)
                (filter matchesFilter allEvents) w) as [Ks _].
  destruct (mergeLoop env svc (readContacts env svc w)
              (filter matchesFilter allEvents) w) as [[pc|msg] w1] eqn:L;
    [|discriminate].
  simpl in Ks. exists allEvents, pc, w1. split; [reflexivity|].
  split; [exact L|]. clear L.
  unfold pm_values in H. rewrite length_map in H.
  destruct pc as [|p pc]; simpl in H.
  - injection H as <- _ _ <-. now rewrite recordMarker_sheet.
  - destruct (sheet_update svc) as [u2|msg]; [|discriminate].
    injection H as <- _ _ <-. rewrite recordMarker_sheet. simpl.
    now rewrite Ks.
Qed.

(** Whatever the outcome, the sheet after a run is the sheet before it or
    the result of one write of a cleaned contact set. *)
Lemma handler_sheet (req : Request) (w : World) :
  sheet (snd (handler env svc req w)) = sheet w
  \/ exists pc,
       sheet (snd (handler env svc req w))
       = write_rows (range_write svc) (writtenRows env svc pc) (sheet w).
Proof.
  destruct (authorizedPost env req) eqn:Ha.
  2:{ destruct (handler_rejected req w Ha) as [R | R]; rewrite R; now left. }
  rewrite (handler_unfolded env svc req w Ha).
  destruct (authorize svc) as [u|msg]; [|now left].
  destruct (calendar_list svc) as [allEvents|msg]; [|now left].
  cbv zeta.
  pose proof (keeps_mergeLoop env svc (readContacts env svc w)
                (filter matchesFilter allEvents) w) as [Ks _].
  destruct (mergeLoop env svc (readContacts env svc w)
              (filter matchesFilter allEvents) w) as [[pc|msg] w1];
    simpl in Ks; [|now left].
  destruct (0 <? List.length (pm_values pc))%nat.
  - destruct (sheet_update svc) as [u2|msg]; [|now left].
    right. exists pc. simpl. rewrite recordMarker_sheet. simpl. now rewrite Ks.
  - left. simpl. now rewrite recordMarker_sheet.
Qed.

(** The handler always answers: every exception of a run ends in the
    response [SyncFailed]. *)
Lemma handler_returns (req : Request) (w : World) :
  exists resp w', handler env svc req w = (Ok resp, w').
Proof.
  destruct (authorizedPost env req) eqn:Ha.
  2:{ destruct (handler_rejected req w Ha) as [R | R]; rewrite R;
        eexists _, _; reflexivity. }
  rewrite (handler_unfolded env svc req w Ha).
  destruct (authorize svc) as [u|msg]; [|eexists _, _; reflexivity].
  destruct (calendar_list svc) as [allEvents|msg]; [|eexists _, _; reflexivity].
  cbv zeta.
  destruct (mergeLoop env svc (readContacts env svc w)
              (filter matchesFilter allEvents) w) as [[pc|msg] w1];
    [|eexists _, _; reflexivity].
  destruct (0 <? List.length (pm_values pc))%nat;
    [destruct (sheet_update svc) as [u2|msg]|]; eexists _, _; reflexivity.
Qed.

Lemma In_skipn {A} (n : nat) (l : list A) (x : A) :
  In x (skipn n l) -> In x l.
Proof.
  revert l. induction n as [|n IH]; intros [|y l]; simpl; auto.
Qed.

Lemma email_contactRow (c : Contact) : cell 1 (contactRow c) = email c.
Proof. reflexivity. Qed.

Lemma storeEmails_written (pc : PMap) (sh : Sheet) (k : string) :
  In k (storeEmails (write_rows (range_write svc) (writtenRows env svc pc) sh))
  -> In k (map email (cleanContacts env svc (pm_values pc)))
     \/ In k (storeEmails sh).
Proof.
  unfold storeEmails, writtenRows.
  destruct (range_write svc); simpl.
  - rewrite map_app, map_map, in_app_iff. intros [H | H].
    + left. erewrite map_ext; [exact H|]. intros c. apply email_contactRow.
    + right. apply in_map_iff in H as (row & E & H). apply in_map_iff.
      exists row. split; [assumption|]. destruct sh as [|hd rest]; [destruct H|].
      simpl in H. simpl. eapply In_skipn; eassumption.
  - rewrite map_map. intros H. left.
    erewrite map_ext; [exact H|]. intros c. apply email_contactRow.
Qed.

Lemma written_In_store (pc : PMap) (sh : Sheet) (c : Contact) :
  In c (cleanContacts env svc (pm_values pc)) ->
  In (contactRow c)
     (tl (write_rows (range_write svc) (writtenRows env svc pc) sh)).
Proof.
  intros H. unfold writtenRows.
  destruct (range_write svc); simpl.
  - apply in_or_app. left. now apply in_map.
  - now apply in_map.
Qed.

(** An email the exclusion policy rejects, in one run: the loop passes it
    by, no written set holds it, and the run does not bring it into the
    sheet. *)
Lemma excluded_email_one_run (req : Request) (w : World) (e : string) :
  shouldSkipEmail env e = true ->
  (forall existing ev pc w0,
     processAttendee env svc existing ev pc e w0 = (Ok pc, w0))
  /\ (forall contacts,
        ~ In e (map email (cleanContacts env svc contacts)))
  /\ (~ In e (storeEmails (sheet w)) ->
      ~ In e (storeEmails (sheet (snd (handler env svc req w))))).
Proof.
  intros Hs. split; [|split].
  - intros existing ev pc w0. unfold processAttendee. now rewrite Hs.
  - intros contacts H. apply in_map_iff in H as (c & <- & H).
    apply cleanContacts_kept in H as [_ H]. congruence.
  - intros Hpre Hpost.
    destruct (handler_sheet req w) as [E | [pc E]]; rewrite E in Hpost;
      [contradiction|].
    apply storeEmails_written in Hpost as [H | H]; [|contradiction].
    apply in_map_iff in H as (c & <- & H).
    apply cleanContacts_kept in H as [_ H]. congruence.
Qed.

(** A row of the sheet after a run whose email the exclusion policy
    rejects was a row of the sheet before the run: the run writes no such
    row. *)
Lemma excluded_row_one_run (req : Request) (w : World) (row : Row) :
  shouldSkipEmail env (cell 1 row) = true ->
  In row (tl (sheet (snd (handler env svc req w)))) ->
  In row (tl (sheet w)).
Proof.
  intros Hs Hpost.
  destruct (handler_sheet req w) as [E | [pc E]]; rewrite E in Hpost;
    [assumption|].
  assert (Hnew : ~ In row (map contactRow
                             (cleanContacts env svc (pm_values pc)))).
  { intros H. apply in_map_iff in H as (c & <- & H).
    rewrite email_contactRow in Hs.
    apply cleanContacts_kept in H as [_ H]. congruence. }
  unfold writtenRows, write_rows in Hpost.
  destruct (range_write svc); simpl in Hpost.
  - apply in_app_or in Hpost as [H | H]; [contradiction|].
    destruct (sheet w) as [|h rows]; [destruct H|].
    simpl. eapply In_skipn. exact H.
  - contradiction.
Qed.

(** C5 (amended).  After a run that completes, every email sighted on a
    selected event that passes the exclusion policy has a row in the
    sheet, and when a contact with that email was read from the store
    before the run the row keeps its name and creation time; a run that
    processes no contact leaves the sheet as it was.  Contacts whose
    email was not sighted are not part of the written set. *)
Theorem sighted_contacts_persist
    (req : Request) (w w' : World) (n e : nat) (ts : string)
    (allEvents : list Event) :
  handler env svc req w = (Ok (SyncCompleted n e ts), w') ->
  calendar_list svc = Ok allEvents ->
  (forall ev k,
     In ev (filter matchesFilter allEvents) ->
     In k (attendeeEmails ev) ->
     shouldSkipEmail env k = false ->
     exists row,
       In row (tl (sheet w')) /\ cell 1 row = k
       /\ (forall c0,
             find (hasEmail k) (readContacts env svc w) = Some c0 ->
             cell 0 row = name c0 /\ cell 6 row = createdAt c0))
  /\ (n = 0 -> sheet w' = sheet w).
Proof.
  intros H Hcal.
  apply handler_completed in H as (all & pc & w1 & C & L & Hn & Hsheet).
  rewrite Hcal in C. injection C as <-.
  split.
  - intros ev k Hev Hk Hs.
    pose proof (mergeLoop_steps env svc _ _ _ _ _ L) as S.
    pose proof (steps_wellKeyed env svc _ _ _ _ (wellKeyed_nil env) S) as W.
    pose proof (steps_traced env svc _ _ [] [] pc (traced_nil _) S) as T.
    assert (Ho : In (ev, k) (observations (filter matchesFilter allEvents)))
      by (apply In_observations; now split).
    pose proof (steps_sighted env svc _ _ _ _ ev k S Ho Hs) as P.
    destruct (pm_get k pc) as [c|] eqn:G; [|congruence].
    pose proof (PMapFacts.get_In _ _ _ G) as Hin.
    exists (contactRow c). split; [|split].
    + destruct pc as [|p pc0]; [destruct Hin|]. rewrite Hsheet.
      apply written_In_store.
      rewrite (cleanContacts_wellKeyed env svc _ W).
      unfold pm_values. apply in_map_iff. now exists (k, c).
    + rewrite email_contactRow. now apply (proj2 W) in Hin.
    + intros c0 F. destruct (proj2 (T k c G) c0 F) as [E1 E2].
      now rewrite <- E1, <- E2.
  - intros ->. destruct pc; [assumption | discriminate].
Qed.

(** The contacts read from a sheet whose [lastMeeting] cells are dates
    carry dates. *)
Lemma validRows_store (sh : Sheet) :
  validRows svc sh = true -> validStore svc (storedContacts env sh) = true.
Proof.
  unfold validRows, validStore, storedContacts. intros H.
  destruct (List.length sh <=? 1)%nat; [reflexivity|].
  rewrite forallb_forall in H. apply forallb_forall. intros c Hc.
  apply filter_In in Hc as [Hc _].
  apply in_map_iff in Hc as (row & <- & Hrow). exact (H row Hrow).
Qed.

(** For a key the exclusion policy lets through, the record
    [existingContacts.find] answers with is the first row of the sheet
    that carries the key in its email cell. *)
Lemma find_storedRow (sh : Sheet) (k : string) :
  shouldSkipEmail env k = false ->
  find (hasEmail k) (storedContacts env sh)
  = option_map rowContact (storedRow sh k).
Proof.
  intros Hk. unfold storedContacts, storedRow.
  destruct (List.length sh <=? 1)%nat eqn:L.
  - apply Nat.leb_le in L.
    destruct sh as [|h [|r rows]]; [reflexivity | reflexivity|].
    simpl in L. lia.
  - clear L. induction (tl sh) as [|row rows IH]; [reflexivity|].
    cbn [map filter find].
    destruct (keepContact env (rowContact row)) eqn:K; cbn [find].
    + change (hasEmail k (rowContact row)) with (String.eqb (cell 1 row) k).
      destruct (String.eqb (cell 1 row) k); [reflexivity | exact IH].
    + destruct (String.eqb (cell 1 row) k) eqn:E; [|exact IH].
      apply String.eqb_eq in E.
      change (keepContact env (rowContact row))
        with (JS.truthy (cell 1 row)
              && negb (shouldSkipEmail env (cell 1 row))) in K.
      rewrite E, Hk, (not_skipped_truthy env k Hk) in K. discriminate.
Qed.

(** C1 (amended).  For a run that completes after the store was read,
    with event starts that are dates and stored [lastMeeting] cells that
    are empty or dates: every contact row the run writes carries a
    [lastMeeting] no earlier than the one of the row the sheet held for
    its email before the run (the first such row) and no earlier than
    the start of any selected event that lists its email, and it is one
    of these times.  So the written value is the later of the stored one
    and the observed event starts, and does not go back. *)
Theorem lastMeeting_monotone
    (req : Request) (w w' : World) (n e : nat) (ts : string)
    (allEvents : list Event) :
  handler env svc req w = (Ok (SyncCompleted n e ts), w') ->
  calendar_list svc = Ok allEvents ->
  sheet_get svc = Ok tt ->
  validStarts svc (filter matchesFilter allEvents) = true ->
  validRows svc (sheet w) = true ->
  exists rows,
    List.length rows = n
    /\ (n = 0 -> sheet w' = sheet w)
    /\ (n <> 0 ->
        sheet w' = write_rows (range_write svc) (headerRow :: rows) (sheet w))
    /\ forall row, In row rows ->
         (forall row0, storedRow (sheet w) (cell 1 row) = Some row0 ->
                       date_le (rowTime svc row0) (rowTime svc row))
         /\ (forall ev, In ev (filter matchesFilter allEvents) ->
                        In (cell 1 row) (attendeeEmails ev) ->
                        date_le (newDate svc (eventStart ev))
                                (rowTime svc row))
         /\ ((exists row0, storedRow (sheet w) (cell 1 row) = Some row0
                           /\ rowTime svc row = rowTime svc row0)
             \/ (exists ev, In ev (filter matchesFilter allEvents)
                            /\ In (cell 1 row) (attendeeEmails ev)
                            /\ rowTime svc row
                               = newDate svc (eventStart ev))).
Proof.
  intros H Hcal Hget Hev Hrows.
  apply handler_completed in H as (allEvents' & pc & w1 & C & L & -> & Hsheet).
  rewrite Hcal in C. injection C as <-.
  assert (R : readContacts env svc w = storedContacts env (sheet w))
    by (unfold readContacts; now rewrite Hget).
  rewrite R in L.
  pose proof (steps_wellKeyed env svc _ _ _ _ (wellKeyed_nil env)
                (mergeLoop_steps env svc _ _ _ _ _ L)) as W.
  exists (map contactRow (cleanContacts env svc (pm_values pc))).
  split; [|split; [|split]].
  - rewrite (cleanContacts_wellKeyed env svc _ W). unfold pm_values.
    now rewrite !length_map.
  - intros Z. destruct pc; [assumption | discriminate].
  - intros Z. destruct pc; [now elim Z | exact Hsheet].
  - intros row Hrow. apply in_map_iff in Hrow as (c & <- & Hc).
    rewrite email_contactRow.
    destruct (merged_lastMeeting_latest env svc (storedContacts env (sheet w))
                (filter matchesFilter allEvents) pc w w1 c Hev
                (validRows_store (sheet w) Hrows) L Hc) as (B & O & Att).
    apply cleanContacts_kept in Hc as [_ Hk].
    rewrite (find_storedRow (sheet w) (email c) Hk) in B, Att.
    split; [|split].
    + intros row0 E. apply (B (rowContact row0)). now rewrite E.
    + exact O.
    + destruct Att as [(c0 & E & T) | Att]; [left | now right].
      destruct (storedRow (sheet w) (email c)) as [row0|]; [|discriminate].
      injection E as <-. now exists row0.
Qed.

(** C6 (amended).  On an authorised [POST]: a failure of the
    authorisation or of the event fetch ends the run with the single
    result [SyncFailed] and an unchanged world; a failure of the contacts
    write ends it with [SyncFailed] and leaves the sheet and the marker
    as they were before the run; a failure of the store read is not
    fatal, [getSheetContacts] answers with the empty list and the run
    goes on; a failure of the write of the sync timestamp is not fatal
    either, the run answers [SyncCompleted] with the contacts written
    and the marker left as it was. *)
Theorem run_fatal_failures (req : Request) (w : World) :
  authorizedPost env req = true ->
  (forall msg, authorize svc = Throw msg ->
     handler env svc req w = (Ok (SyncFailed msg (now svc)), w))
  /\ (forall msg, authorize svc = Ok tt -> calendar_list svc = Throw msg ->
        handler env svc req w = (Ok (SyncFailed msg (now svc)), w))
  /\ (forall msg allEvents pc w1,
        authorize svc = Ok tt -> calendar_list svc = Ok allEvents ->
        mergeLoop env svc (readContacts env svc w)
                  (filter matchesFilter allEvents) w = (Ok pc, w1) ->
        pc <> [] ->
        sheet_update svc = Throw msg ->
        handler env svc req w = (Ok (SyncFailed msg (now svc)), w1)
        /\ sheet w1 = sheet w /\ marker w1 = marker w)
  /\ (forall msg, sheet_get svc = Throw msg ->
        getSheetContacts env svc w = (Ok [], w))
  /\ (forall msg allEvents pc w1,
        authorize svc = Ok tt -> calendar_list svc = Ok allEvents ->
        mergeLoop env svc (readContacts env svc w)
                  (filter matchesFilter allEvents) w = (Ok pc, w1) ->
        pc = [] \/ sheet_update svc = Ok tt ->
        marker_update svc = Throw msg ->
        exists w',
          handler env svc req w
          = (Ok (SyncCompleted (List.length pc)
                               (List.length (filter matchesFilter allEvents))
                               (now svc)), w')
          /\ marker w' = marker w
          /\ sheet w' = match pc with
                        | [] => sheet w
                        | _ => write_rows (range_write svc)
                                          (writtenRows env svc pc) (sheet w)
                        end).
Proof.
  intros Ha. split; [|split; [|split; [|split]]].
  - intros msg E. rewrite (handler_unfolded env svc req w Ha). now rewrite E.
  - intros msg E1 E2. rewrite (handler_unfolded env svc req w Ha).
    now rewrite E1, E2.
  - intros msg allEvents pc w1 Eauth Ecal Erun Hpc Eupd.
    pose proof (keeps_mergeLoop env svc (readContacts env svc w)
                  (filter matchesFilter allEvents) w) as [Ks Km].
    rewrite Erun in Ks, Km. simpl in Ks, Km.
    split; [|now split].
    rewrite (handler_unfolded env svc req w Ha). rewrite Eauth, Ecal.
    cbv zeta. rewrite Erun. destruct pc as [|p pc0]; [congruence|]. simpl.
    now rewrite Eupd.
  - intros msg E. rewrite getSheetContacts_reads. unfold readContacts.
    now rewrite E.
  - intros msg allEvents pc w1 Eauth Ecal Erun Hupd Emark.
    pose proof (keeps_mergeLoop env svc (readContacts env svc w)
                  (filter matchesFilter allEvents) w) as [Ks Km].
    rewrite Erun in Ks, Km. simpl in Ks, Km.
    rewrite (handler_unfolded env svc req w Ha). rewrite Eauth, Ecal.
    cbv zeta. rewrite Erun. unfold pm_values. rewrite length_map.
    unfold recordMarker. rewrite Emark.
    destruct pc as [|p pc0]; simpl.
    + exists w1. now repeat split.
    + destruct Hupd as [Hupd | Hupd]; [discriminate|]. rewrite Hupd.
      eexists. split; [reflexivity|]. simpl. split; [exact Km|].
      now rewrite Ks.
Qed.

End Runs.

(** C2 (amended).  For every email the exclusion policy rejects, no run
    creates or updates a contact with it: the loop passes such an
    attendee by without touching the map, the notes sources or the
    language model; it is not the email of any contact of a written set;
    from a sheet that holds no contact with it (a fresh sheet in
    particular) no sequence of runs, whatever the collaborators answer,
    leaves a contact with it in the sheet; a row with it found in the
    sheet after a sequence of runs is a row the sheet held before them,
    with every cell as it was; and no contact read from the sheet carries
    it.  A row with such an email that the sheet already holds is not
    removed by the policy. *)
Theorem excluded_emails_never_stored (env : Env) (e : string) :
  shouldSkipEmail env e = true ->
  (forall svc existing ev pc w0,
     processAttendee env svc existing ev pc e w0 = (Ok pc, w0))
  /\ (forall svc contacts,
        ~ In e (map email (cleanContacts env svc contacts)))
  /\ (forall runs w,
        ~ In e (storeEmails (sheet w)) ->
        ~ In e (storeEmails (sheet (afterRuns env runs w))))
  /\ (forall runs w row,
        cell 1 row = e ->
        In row (tl (sheet (afterRuns env runs w))) ->
        In row (tl (sheet w)))
  /\ (forall svc w, ~ In e (map email (readContacts env svc w))).
Proof.
  intros Hs. split; [|split; [|split; [|split]]].
  - intros svc. apply (excluded_email_one_run env svc (mkRequest "" "" "")
                         (mkWorld [] "" []) e Hs).
  - intros svc. apply (excluded_email_one_run env svc (mkRequest "" "" "")
                         (mkWorld [] "" []) e Hs).
  - induction runs as [|[svc req] runs IH]; intros w Hpre; simpl;
      [assumption|].
    apply IH. now apply (excluded_email_one_run env svc req w e Hs).
  - induction runs as [|[svc req] runs IH]; intros w row Hrow Hpost; simpl in *;
      [assumption|].
    apply (excluded_row_one_run env svc req w row); [now rewrite Hrow|].
    now apply IH.
  - intros svc w H. unfold readContacts in H.
    destruct (sheet_get svc); [|destruct H].
    unfold storedContacts in H.
    destruct (List.length (sheet w) <=? 1)%nat; [destruct H|].
    apply in_map_iff in H as (c & <- & H).
    apply filter_In in H as [_ H]. unfold keepContact in H.
    apply andb_true_iff in H as [_ H]. now rewrite Hs in H.
Qed.

(** A fresh sheet holds no contact at all. *)
Lemma fresh_sheet_no_contact :
  storeEmails [headerRow] = [] /\ storeEmails [] = [].
Proof. split; reflexivity. Qed.

(** ** Results do not depend on the world *)

Section PureResults.

Variable env : Env.
Variable svc : Services.

Lemma pure_ret {A} (a : A) : pureResult (ret a).
Proof. intros w1 w2. reflexivity. Qed.

Lemma pure_throw {A} (msg : string) : pureResult (@throw A msg).
Proof. intros w1 w2. reflexivity. Qed.

Lemma pure_lift {A} (r : Res A) : pureResult (lift r).
Proof. intros w1 w2. reflexivity. Qed.

Lemma pure_call_model (prompt : string) : pureResult (call_model svc prompt).
Proof. intros w1 w2. reflexivity. Qed.

Lemma pure_bind {A B} (m : M A) (k : A -> M B) :
  pureResult m -> (forall a, pureResult (k a)) -> pureResult (bind m k).
Proof.
  intros Hm Hk w1 w2. unfold bind. specialize (Hm w1 w2).
  destruct (m w1) as [[a1|m1] v1], (m w2) as [[a2|m2] v2]; simpl in Hm;
    try discriminate.
  - injection Hm as ->. apply Hk.
  - simpl. congruence.
Qed.

Lemma pure_try_catch {A} (m : M A) (h : string -> M A) :
  pureResult m -> (forall msg, pureResult (h msg)) ->
  pureResult (try_catch m h).
Proof.
  intros Hm Hh w1 w2. unfold try_catch. specialize (Hm w1 w2).
  destruct (m w1) as [[a1|m1] v1], (m w2) as [[a2|m2] v2]; simpl in Hm;
    try discriminate.
  - simpl. congruence.
  - injection Hm as ->. apply Hh.
Qed.

Lemma pure_json_parse (s : string) : pureResult (json_parse s).
Proof.
  unfold json_parse. destruct (Json.parse s); [apply pure_ret | apply pure_throw].
Qed.

Lemma pure_member (key : string) (v : json) : pureResult (member key v).
Proof. destruct v; simpl; try apply pure_ret. apply pure_throw. Qed.

Lemma pure_getAIClient : pureResult (getAIClient env).
Proof.
  unfold getAIClient.
  destruct (JS.truthy (OPENAI_API_KEY env)); [apply pure_ret|].
  destruct (JS.truthy (GEMINI_API_KEY env)); [apply pure_ret | apply pure_throw].
Qed.

Lemma pure_analyzeWithAI (notesContent contactName sourceType : string) :
  pureResult (analyzeWithAI env svc notesContent contactName sourceType).
Proof.
  unfold analyzeWithAI.
  destruct (negb (JS.truthy notesContent) || _); [apply pure_ret|].
  apply pure_bind; [apply pure_getAIClient|]. intros _.
  apply pure_try_catch; [|intros; apply pure_ret].
  apply pure_bind.
  - destruct (JS.truthy (OPENAI_API_KEY env)); [apply pure_call_model|].
    destruct (JS.truthy (GEMINI_API_KEY env));
      [apply pure_call_model | apply pure_throw].
  - intros text. destruct (negb (JS.truthy text)); [apply pure_throw|].
    apply pure_bind.
    + apply pure_try_catch; [apply pure_json_parse|]. intros _.
      destruct (Re.match_braces text); [apply pure_json_parse | apply pure_throw].
    + intros pA. repeat (apply pure_bind; [apply pure_member | intros ?]).
      apply pure_ret.
Qed.

Lemma pure_getMeetingNotes (k d t : string) :
  pureResult (getMeetingNotes env svc k d t).
Proof.
  unfold getMeetingNotes.
  apply pure_bind.
  - apply pure_try_catch; [|intros; apply pure_ret].
    destruct (JS.truthy (FIREFLIES_API_KEY env)); [|apply pure_ret].
    apply pure_bind; [|intros; apply pure_ret].
    unfold getFirefliesTranscript.
    destruct (negb (JS.truthy (FIREFLIES_API_KEY env))); [apply pure_throw|].
    destruct (fireflies_api svc k d); [apply pure_ret | apply pure_throw].
  - intros [n|]; [apply pure_ret|].
    apply pure_bind.
    + apply pure_try_catch; [|intros; apply pure_ret].
      apply pure_bind; [apply pure_lift | intros; apply pure_ret].
    + intros [n|]; [apply pure_ret|].
      apply pure_try_catch; [|intros; apply pure_ret].
      apply pure_bind; [apply pure_lift | intros; apply pure_ret].
Qed.

(** The insight [analyzeWithAI] returns has three truthy fields, so it
    overwrites all three fields of the contact. *)
Lemma or_else_truthy (a b : json) :
  Json.truthy b = true -> Json.truthy (Json.or_else a b) = true.
Proof. unfold Json.or_else. now destruct (Json.truthy a) eqn:E. Qed.

Lemma bind_Ok {A B} (m : M A) (k : A -> M B) (w w' : World) (b : B) :
  bind m k w = (Ok b, w') ->
  exists a w1, m w = (Ok a, w1) /\ k a w1 = (Ok b, w').
Proof.
  unfold bind. destruct (m w) as [[a|msg] w1]; [|discriminate].
  intros H. now exists a, w1.
Qed.

Lemma try_catch_Ok {A} (m : M A) (h : string -> M A) (w w' : World) (a : A) :
  try_catch m h w = (Ok a, w') ->
  m w = (Ok a, w')
  \/ exists msg w1, m w = (Throw msg, w1) /\ h msg w1 = (Ok a, w').
Proof.
  unfold try_catch. destruct (m w) as [[x|msg] w1].
  - intros [= -> ->]. now left.
  - intros H. right. now exists msg, w1.
Qed.

Lemma analyze_fields_truthy
    (notesContent contactName sourceType : string) (w w' : World) (a : Insight) :
  analyzeWithAI env svc notesContent contactName sourceType w = (Ok a, w') ->
  Json.truthy (i_status a) = true
  /\ Json.truthy (i_nextStep a) = true
  /\ Json.truthy (i_notes a) = true.
Proof.
  unfold analyzeWithAI.
  destruct (negb (JS.truthy notesContent) || _).
  { intros [= <- _]. now repeat split. }
  intros H. apply bind_Ok in H as (cl & w0 & _ & H).
  apply try_catch_Ok in H as [H | (msg & w1 & _ & H)].
  2:{ injection H as <- _. now repeat split. }
  apply bind_Ok in H as (text & w2 & _ & H).
  destruct (negb (JS.truthy text)); [discriminate|].
  apply bind_Ok in H as (pA & w3 & _ & H).
  apply bind_Ok in H as (st & w4 & _ & H).
  apply bind_Ok in H as (ns & w5 & _ & H).
  apply bind_Ok in H as (nt & w6 & _ & H).
  injection H as <- _. simpl. repeat split; now apply or_else_truthy.
Qed.

End PureResults.

(** ** The first sighting decides the insight *)

Section FirstInsight.

Variable env : Env.
Variable svc : Services.
Variable existing : list Contact.

Lemma bind_eq {A B} (m : M A) (k : A -> M B) (w w1 : World) (a : A) :
  m w = (Ok a, w1) -> bind m k w = k a w1.
Proof. unfold bind. now intros ->. Qed.

Lemma foldM_app {A B} (body : B -> A -> M B) (l1 l2 : list A) (acc : B)
    (w : World) :
  foldM body (l1 ++ l2) acc w
  = bind (foldM body l1 acc) (fun acc' => foldM body l2 acc') w.
Proof.
  revert acc w. induction l1 as [|x l1 IH]; intros acc w; simpl.
  - reflexivity.
  - unfold bind. destruct (body acc x w) as [[b|msg] w1]; [|reflexivity].
    rewrite IH. reflexivity.
Qed.

Lemma first_occurrence (k : string) (l : list string) :
  In k l -> exists l1 l2, l = l1 ++ k :: l2 /\ ~ In k l1.
Proof.
  induction l as [|x l IH]; [intros []|].
  intros H. destruct (string_dec x k) as [-> | Hne].
  - exists [], l. now split.
  - destruct H as [H | H]; [contradiction|].
    destruct (IH H) as (l1 & l2 & -> & Hn).
    exists (x :: l1), l2. split; [reflexivity|].
    intros [E | E]; [contradiction | now apply Hn].
Qed.

(** The first sighting of an email with notes and an insight stores the
    base contact with the insight applied. *)
Lemma processAttendee_first (ev : Event) (pc : PMap) (k : string)
    (mn : NotesResult) (a : Insight) (w w0 : World) :
  shouldSkipEmail env k = false ->
  pm_get k pc = None ->
  fst (getMeetingNotes env svc k (start_dateTime ev) (summary ev) w0)
    = Ok (Some mn) ->
  fst (analyzeWithAI env svc (content mn)
         (JS.or_else (name (baseContact svc existing ev k)) k) (source mn) w0)
    = Ok a ->
  exists w',
    processAttendee env svc existing ev pc k w
    = (Ok (pm_set k (advanceLastMeeting svc ev
                       (applyInsight (baseContact svc existing ev k) a)) pc),
       w').
Proof.
  intros Hs G Hn Ha. unfold processAttendee. rewrite Hs, G.
  rewrite (pure_getMeetingNotes env svc k _ _ w0 w) in Hn.
  destruct (getMeetingNotes_returns env svc k (start_dateTime ev) (summary ev) w)
    as [r E].
  rewrite E in Hn. simpl in Hn. injection Hn as ->.
  unfold bind at 1, try_catch at 1. rewrite E.
  rewrite (pure_analyzeWithAI env svc _ _ _ w0 w) in Ha.
  unfold bind at 1, try_catch, bind at 1.
  destruct (analyzeWithAI env svc (content mn)
              (JS.or_else (name (baseContact svc existing ev k)) k)
              (source mn) w) as [r w1].
  simpl in Ha. subst r. unfold ret, bind. eexists. reflexivity.
Qed.

(** Sightings of other emails leave the entry of [k] alone. *)
Lemma steps_untouched (obs : list (Event * string)) (pc pc' : PMap)
    (k : string) :
  steps env svc existing obs pc pc' ->
  (forall ev, ~ In (ev, k) obs) ->
  pm_get k pc' = pm_get k pc.
Proof.
  revert pc. induction obs as [|[ev0 k0] obs IH]; simpl; intros pc.
  - now intros ->.
  - intros (pc1 & S & R) Hn.
    rewrite (IH pc1 R) by (intros ev H; apply (Hn ev); now right).
    assert (Hk : k0 <> k) by (intros ->; apply (Hn ev0); now left).
    destruct (shouldSkipEmail env k0); [now subst pc1|].
    destruct (pm_get k0 pc) as [ex|].
    + subst pc1. now apply PMapFacts.get_set_other.
    + destruct S as (c1 & -> & _). now apply PMapFacts.get_set_other.
Qed.

(** Later sightings of [k] only move its [lastMeeting], to the latest of
    the times seen. *)
Lemma steps_keep_insight (obs : list (Event * string)) (pc pc' : PMap)
    (k : string) (c : Contact) (t0 : Z) :
  shouldSkipEmail env k = false ->
  steps env svc existing obs pc pc' ->
  pm_get k pc = Some c ->
  lastMeetingTime svc c = Some t0 ->
  (forall ev, In (ev, k) obs -> isValid (newDate svc (eventStart ev)) = true) ->
  exists c' t',
    pm_get k pc' = Some c'
    /\ status c' = status c /\ nextStep c' = nextStep c /\ notes c' = notes c
    /\ lastMeetingTime svc c' = Some t'
    /\ (t0 <= t')%Z
    /\ (t' = t0 \/ exists ev, In (ev, k) obs
                              /\ newDate svc (eventStart ev) = Some t')
    /\ (forall ev t, In (ev, k) obs -> newDate svc (eventStart ev) = Some t ->
                     (t <= t')%Z).
Proof.
  intros Hs. revert pc c t0.
  induction obs as [|[ev0 k0] obs IH]; simpl; intros pc c t0 S G E V.
  - subst pc'. exists c, t0. repeat split; auto; try lia; try (now intros ev t []).
  - destruct S as (pc1 & S & R).
    destruct (string_dec k0 k) as [-> | Hne].
    + rewrite Hs, G in S. subst pc1.
      destruct (newDate svc (eventStart ev0)) as [te|] eqn:Ee.
      2:{ specialize (V ev0 (or_introl eq_refl)). now rewrite Ee in V. }
      pose proof (advance_time svc ev0 c t0 te E Ee) as A.
      destruct (advance_fields svc ev0 c) as (_ & _ & F1 & F2 & F3).
      destruct (IH (pm_set k (advanceLastMeeting svc ev0 c) pc)
                   (advanceLastMeeting svc ev0 c) (Z.max t0 te) R
                   (PMapFacts.get_set_same _ _ _) A
                   (fun ev H => V ev (or_intror H)))
        as (c' & t' & G' & S1 & S2 & S3 & E' & Hle & Hor & Hall).
      exists c', t'. repeat split; try congruence; try lia.
      * destruct Hor as [-> | (ev & Hin & Het)].
        -- destruct (Z.max_spec t0 te) as [[_ ->] | [_ ->]];
             [right; exists ev0; split; [now left | assumption] | now left].
        -- right. exists ev. split; [now right | assumption].
      * intros ev t [[= <-] | Hin] Het.
        -- rewrite Ee in Het. injection Het as <-. lia.
        -- now apply (Hall ev).
    + assert (G1 : pm_get k pc1 = Some c).
      { destruct (shouldSkipEmail env k0); [now subst pc1|].
        destruct (pm_get k0 pc) as [ex|].
        - subst pc1. now rewrite PMapFacts.get_set_other.
        - destruct S as (c1 & -> & _). now rewrite PMapFacts.get_set_other. }
      destruct (IH pc1 c t0 R G1 E (fun ev H => V ev (or_intror H)))
        as (c' & t' & G' & S1 & S2 & S3 & E' & Hle & Hor & Hall).
      exists c', t'. repeat split; auto.
      * destruct Hor as [-> | (ev & Hin & Het)]; [now left|].
        right. exists ev. split; [now right | assumption].
      * intros ev t [[= <- <-] | Hin] Het; [contradiction | now apply (Hall ev)].
Qed.

Lemma applyInsight_time (c : Contact) (a : Insight) :
  lastMeetingTime svc (applyInsight c a) = lastMeetingTime svc c.
Proof. reflexivity. Qed.

(** The run up to and including the first sighting of [k], and the
    sightings that follow it. *)
Lemma mergeLoop_split (pre rest : list Event) (e1 : Event)
    (ks1 ks2 : list string) (k : string) (mn : NotesResult) (a : Insight)
    (pc : PMap) (w w' w0 : World) :
  shouldSkipEmail env k = false ->
  attendeeEmails e1 = ks1 ++ k :: ks2 ->
  ~ In k ks1 ->
  (forall ev, In ev pre -> ~ In k (attendeeEmails ev)) ->
  fst (getMeetingNotes env svc k (start_dateTime e1) (summary e1) w0)
    = Ok (Some mn) ->
  fst (analyzeWithAI env svc (content mn)
         (JS.or_else (name (baseContact svc existing e1 k)) k) (source mn) w0)
    = Ok a ->
  mergeLoop env svc existing (pre ++ e1 :: rest) w = (Ok pc, w') ->
  exists pcB,
    steps env svc existing (map (pair e1) ks2 ++ observations rest)
      (pm_set k (advanceLastMeeting svc e1
                   (applyInsight (baseContact svc existing e1 k) a)) pcB)
      pc.
Proof.
  intros Hs Hatt Hk1 Hpre Hn Ha Hrun.
  unfold mergeLoop in Hrun. rewrite foldM_app in Hrun.
  destruct (event_loop_steps env svc existing pre [] w)
    as (pcA & wA & EA & SA).
  rewrite (bind_eq _ _ _ _ _ EA) in Hrun. simpl in Hrun.
  assert (GA : pm_get k pcA = None).
  { rewrite (steps_untouched _ _ _ k SA); [reflexivity|].
    intros ev H. apply In_observations in H as [H1 H2]. now apply (Hpre ev). }
  destruct (attendee_loop_steps env svc existing e1 ks1 pcA wA)
    as (pcB & wB & EB & SB).
  assert (GB : pm_get k pcB = None).
  { rewrite (steps_untouched _ _ _ k SB); [assumption|].
    intros ev H. apply in_map_iff in H as (k' & [= _ ->] & H). contradiction. }
  destruct (processAttendee_first e1 pcB k mn a wB w0 Hs GB Hn Ha) as [wC EC].
  destruct (attendee_loop_steps env svc existing e1 ks2
              (pm_set k (advanceLastMeeting svc e1
                           (applyInsight (baseContact svc existing e1 k) a))
                      pcB) wC)
    as (pcD & wD & ED & SD).
  assert (EE : processEvent env svc existing pcA e1 wA = (Ok pcD, wD)).
  { unfold processEvent, try_catch. rewrite Hatt, foldM_app.
    rewrite (bind_eq _ _ _ _ _ EB). simpl.
    rewrite (bind_eq _ _ _ _ _ EC). now rewrite ED. }
  rewrite (bind_eq _ _ _ _ _ EE) in Hrun.
  destruct (event_loop_steps env svc existing rest pcD wD)
    as (pcF & wF & EF & SF).
  rewrite EF in Hrun. injection Hrun as -> _.
  exists pcB. apply steps_app. now exists pcD.
Qed.

(** C4 (amended).  When an email that passes the exclusion policy is
    sighted on exactly two selected events, with notes found and the
    insight [I1] resolved at the earlier one, the written contact carries
    [I1]'s status, next step and notes whatever the later event would
    resolve (the email is not analysed again: first write within the run
    stands), and its [lastMeeting] is the latest of the stored time and
    the two event times. *)
Theorem first_insight_stands
    (pre mid post : list Event) (e1 e2 : Event) (k : string)
    (mn : NotesResult) (I1 : Insight) (tb t1 t2 : Z)
    (pc : PMap) (w w' w0 : World) :
  shouldSkipEmail env k = false ->
  In k (attendeeEmails e1) ->
  In k (attendeeEmails e2) ->
  (forall ev, In ev (pre ++ mid ++ post) -> ~ In k (attendeeEmails ev)) ->
  fst (getMeetingNotes env svc k (start_dateTime e1) (summary e1) w0)
    = Ok (Some mn) ->
  fst (analyzeWithAI env svc (content mn)
         (JS.or_else (name (baseContact svc existing e1 k)) k) (source mn) w0)
    = Ok I1 ->
  lastMeetingTime svc (baseContact svc existing e1 k) = Some tb ->
  newDate svc (eventStart e1) = Some t1 ->
  newDate svc (eventStart e2) = Some t2 ->
  mergeLoop env svc existing (pre ++ e1 :: mid ++ e2 :: post) w = (Ok pc, w') ->
  exists c,
    In c (cleanContacts env svc (pm_values pc))
    /\ email c = k
    /\ status c = i_status I1
    /\ nextStep c = i_nextStep I1
    /\ notes c = i_notes I1
    /\ lastMeetingTime svc c = Some (Z.max (Z.max tb t1) t2).
Proof.
  intros Hs H1 H2 Hother Hn Ha Eb E1 E2 Hrun.
  destruct (first_occurrence k _ H1) as (ks1 & ks2 & Hatt & Hk1).
  assert (Hpre : forall ev, In ev pre -> ~ In k (attendeeEmails ev)).
  { intros ev H. apply Hother. apply in_or_app. now left. }
  destruct (mergeLoop_split pre (mid ++ e2 :: post) e1 ks1 ks2 k mn I1 pc
              w w' w0 Hs Hatt Hk1 Hpre Hn Ha Hrun) as (pcB & S).
  pose proof (mergeLoop_steps env svc _ _ _ _ _ Hrun) as Sall.
  pose proof (steps_wellKeyed env svc _ _ _ _ (wellKeyed_nil env) Sall) as W.
  set (base := baseContact svc existing e1 k) in *.
  set (cC := advanceLastMeeting svc e1 (applyInsight base I1)) in *.
  assert (EC : lastMeetingTime svc cC = Some (Z.max tb t1)).
  { apply advance_time; [now rewrite applyInsight_time | assumption]. }
  assert (Hsight : forall ev,
            In (ev, k) (map (pair e1) ks2 ++ observations (mid ++ e2 :: post)) ->
            ev = e1 \/ ev = e2).
  { intros ev H. apply in_app_or in H as [H | H].
    - apply in_map_iff in H as (k' & [= <- _] & _). now left.
    - apply In_observations in H as [Hev Hk].
      apply in_app_or in Hev as [Hev | [<- | Hev]]; [exfalso | now right | exfalso];
        apply (Hother ev); auto; apply in_or_app; right; apply in_or_app; auto. }
  destruct (steps_keep_insight _ _ _ k cC (Z.max tb t1) Hs S
              (PMapFacts.get_set_same _ _ _) EC)
    as (c & t' & G & S1 & S2 & S3 & Et & Hle & Hor & Hall).
  { intros ev H. destruct (Hsight ev H) as [-> | ->];
      [now rewrite E1 | now rewrite E2]. }
  assert (Tr : Json.truthy (i_status I1) = true
               /\ Json.truthy (i_nextStep I1) = true
               /\ Json.truthy (i_notes I1) = true).
  { destruct (analyzeWithAI env svc (content mn)
                (JS.or_else (name base) k) (source mn) w0) as [r w1] eqn:E.
    simpl in Ha. subst r. exact (analyze_fields_truthy env svc _ _ _ _ _ _ E). }
  destruct Tr as (Tr1 & Tr2 & Tr3).
  destruct (advance_fields svc e1 (applyInsight base I1)) as (_ & _ & F1 & F2 & F3).
  exists c. split; [|split; [|split; [|split; [|split]]]].
  - rewrite (cleanContacts_wellKeyed env svc _ W).
    apply PMapFacts.get_In in G. unfold pm_values. apply in_map_iff.
    now exists (k, c).
  - apply PMapFacts.get_In in G. now apply (proj2 W) in G.
  - rewrite S1. unfold cC. rewrite F1. simpl. unfold Json.or_else.
    now rewrite Tr1.
  - rewrite S2. unfold cC. rewrite F2. simpl. unfold Json.or_else.
    now rewrite Tr2.
  - rewrite S3. unfold cC. rewrite F3. simpl. unfold Json.or_else.
    now rewrite Tr3.
  - rewrite Et. f_equal.
    assert (H2' : (t2 <= t')%Z).
    { apply (Hall e2); [|assumption]. apply in_or_app. right.
      apply In_observations. split; [|assumption].
      apply in_or_app. right. now left. }
    destruct Hor as [-> | (ev & Hin & Het)]; [lia|].
    destruct (Hsight ev Hin) as [-> | ->]; rewrite Het in *.
    + injection E1 as <-. lia.
    + injection E2 as <-. lia.
Qed.

End FirstInsight.

(** * The scenarios, run *)

Module Scenarios.

Import Sample.

(** Jane is stored with a meeting on 1 April and is sighted on 7 May and
    20 May: the run writes one row, hers, and its [lastMeeting] is
    neither before the stored one nor before the later event. *)
Lemma lastMeeting_monotone_witness :
  exists rows,
    List.length rows = 1
    /\ (1 = 0 ->
        sheet (snd (handler env (services [introCall; followUp] OverwriteCells)
                            request (worldWith [janeRow; samRow])))
        = sheet (worldWith [janeRow; samRow]))
    /\ (1 <> 0 ->
        sheet (snd (handler env (services [introCall; followUp] OverwriteCells)
                            request (worldWith [janeRow; samRow])))
        = write_rows (range_write (services [introCall; followUp]
                                            OverwriteCells))
                     (headerRow :: rows) (sheet (worldWith [janeRow; samRow])))
    /\ forall row, In row rows ->
         (forall row0,
            storedRow (sheet (worldWith [janeRow; samRow])) (cell 1 row)
            = Some row0 ->
            date_le (rowTime (services [introCall; followUp] OverwriteCells)
                             row0)
                    (rowTime (services [introCall; followUp] OverwriteCells)
                             row))
         /\ (forall ev, In ev (filter matchesFilter [introCall; followUp]) ->
                        In (cell 1 row) (attendeeEmails ev) ->
                        date_le (newDate (services [introCall; followUp]
                                                   OverwriteCells)
                                         (eventStart ev))
                                (rowTime (services [introCall; followUp]
                                                   OverwriteCells) row))
         /\ ((exists row0,
                storedRow (sheet (worldWith [janeRow; samRow])) (cell 1 row)
                = Some row0
                /\ rowTime (services [introCall; followUp] OverwriteCells) row
                   = rowTime (services [introCall; followUp] OverwriteCells)
                             row0)
             \/ (exists ev, In ev (filter matchesFilter [introCall; followUp])
                            /\ In (cell 1 row) (attendeeEmails ev)
                            /\ rowTime (services [introCall; followUp]
                                                 OverwriteCells) row
                               = newDate (services [introCall; followUp]
                                                   OverwriteCells)
                                         (eventStart ev))).
Proof.
  assert (Hrun : handler env (services [introCall; followUp] OverwriteCells)
                   request (worldWith [janeRow; samRow])
                 = (Ok (SyncCompleted 1 2 clock),
                    snd (handler env
                           (services [introCall; followUp] OverwriteCells)
                           request (worldWith [janeRow; samRow]))))
    by (vm_compute; reflexivity).
  assert (Hev : validStarts (services [introCall; followUp] OverwriteCells)
                  (filter matchesFilter [introCall; followUp]) = true)
    by (vm_compute; reflexivity).
  assert (Hst : validRows (services [introCall; followUp] OverwriteCells)
                  (sheet (worldWith [janeRow; samRow])) = true)
    by (vm_compute; reflexivity).
  exact (lastMeeting_monotone env
           (services [introCall; followUp] OverwriteCells) request
           (worldWith [janeRow; samRow])
           (snd (handler env (services [introCall; followUp] OverwriteCells)
                         request (worldWith [janeRow; samRow])))
           1 2 clock [introCall; followUp] Hrun eq_refl eq_refl Hev Hst).
Defined.

(** The calendar owner attends the intro call and is no contact before
    the two runs: none carries the address after them. *)
Lemma excluded_emails_never_stored_witness :
  ~ In "jake@viehq.com"
       (storeEmails
          (sheet (afterRuns env
                    [(services [introWithHost] OverwriteCells, request);
                     (services [followUp] OverwriteCells, request)]
                    (worldWith [samRow])))).
Proof.
  assert (Hskip : shouldSkipEmail env "jake@viehq.com" = true)
    by (vm_compute; reflexivity).
  assert (Hpre : ~ In "jake@viehq.com"
                      (storeEmails (sheet (worldWith [samRow]))))
    by (vm_compute; intros [H | []]; discriminate H).
  exact (proj1 (proj2 (proj2 (excluded_emails_never_stored
                                env "jake@viehq.com" Hskip)))
               [(services [introWithHost] OverwriteCells, request);
                (services [followUp] OverwriteCells, request)]
               (worldWith [samRow]) Hpre).
Defined.

(** The two spellings of [mixedCaseCall] are two keys, each written
    once. *)
Lemma one_contact_per_spelling_witness :
  NoDup (map email
           (cleanContacts env (services [mixedCaseCall] OverwriteCells)
                          (pm_values mixedCaseMap))).
Proof.
  assert (Hrun : mergeLoop env (services [mixedCaseCall] OverwriteCells) []
                   [mixedCaseCall] emptyWorld = (Ok mixedCaseMap, emptyWorld))
    by (vm_compute; reflexivity).
  exact (proj1 (one_contact_per_spelling env
                  (services [mixedCaseCall] OverwriteCells)
                  [] [mixedCaseCall] mixedCaseMap emptyWorld emptyWorld Hrun)).
Defined.

(** C3, as stated, fails: one address spelled in two letter cases on the
    attendee list becomes two contacts of the sheet, whose emails agree
    once lower-cased. *)
Lemma case_variants_make_two_contacts :
  JS.toLowerCase "Jane@AcmeVentures.com" = JS.toLowerCase "jane@acmeventures.com"
  /\ fst (handler env (services [mixedCaseCall] OverwriteCells) request
                  emptyWorld)
     = Ok (SyncCompleted 2 1 clock)
  /\ storeEmails
       (sheet (snd (handler env (services [mixedCaseCall] OverwriteCells)
                            request emptyWorld)))
     = ["Jane@AcmeVentures.com"; "jane@acmeventures.com"].
Proof. repeat split; vm_compute; reflexivity. Qed.

(** Jane is sighted on two events with a recap after each; the insight
    of the first one is written, with the time of the second. *)
Lemma first_insight_stands_witness :
  exists c,
    In c (cleanContacts env twoMeetings
            (pm_values [("jane@acmeventures.com", janeInterested)]))
    /\ email c = "jane@acmeventures.com"
    /\ status c = i_status interestedInsight
    /\ nextStep c = i_nextStep interestedInsight
    /\ notes c = i_notes interestedInsight
    /\ lastMeetingTime twoMeetings c
       = Some (Z.max (Z.max 1715094000000 1715094000000) 1716220800000).
Proof.
  assert (Hskip : shouldSkipEmail env "jane@acmeventures.com" = false)
    by (vm_compute; reflexivity).
  assert (Hnotes : fst (getMeetingNotes env twoMeetings "jane@acmeventures.com"
                          (start_dateTime introCall) (summary introCall)
                          emptyWorld)
                   = Ok (Some (mkNotes firstRecap "Gmail")))
    by (vm_compute; reflexivity).
  assert (Hinsight :
            fst (analyzeWithAI env twoMeetings
                   (content (mkNotes firstRecap "Gmail"))
                   (JS.or_else
                      (name (baseContact twoMeetings [] introCall
                                         "jane@acmeventures.com"))
                      "jane@acmeventures.com")
                   (source (mkNotes firstRecap "Gmail")) emptyWorld)
            = Ok interestedInsight)
    by (vm_compute; reflexivity).
  assert (Hbase : lastMeetingTime twoMeetings
                    (baseContact twoMeetings [] introCall
                                 "jane@acmeventures.com")
                  = Some 1715094000000%Z)
    by (vm_compute; reflexivity).
  assert (H1 : newDate twoMeetings (eventStart introCall)
               = Some 1715094000000%Z) by (vm_compute; reflexivity).
  assert (H2 : newDate twoMeetings (eventStart followUp)
               = Some 1716220800000%Z) by (vm_compute; reflexivity).
  assert (Hrun : mergeLoop env twoMeetings []
                   ([] ++ introCall :: [] ++ followUp :: []) emptyWorld
                 = (Ok [("jane@acmeventures.com", janeInterested)],
                    snd (mergeLoop env twoMeetings [] [introCall; followUp]
                                   emptyWorld)))
    by (vm_compute; reflexivity).
  exact (first_insight_stands env twoMeetings [] [] [] [] introCall followUp
           "jane@acmeventures.com" (mkNotes firstRecap "Gmail")
           interestedInsight 1715094000000 1715094000000 1716220800000
           [("jane@acmeventures.com", janeInterested)]
           emptyWorld
           (snd (mergeLoop env twoMeetings [] [introCall; followUp] emptyWorld))
           emptyWorld Hskip (or_introl eq_refl) (or_introl eq_refl)
           (fun ev (H : In ev []) => match H with end)
           Hnotes Hinsight Hbase H1 H2 Hrun).
Defined.

(** C4, as stated, fails: with the insight [Interested] resolved for the
    earlier meeting and [Rejected] the one the later meeting resolves to,
    the written contact carries the earlier one; the model is asked
    once. *)
Lemma later_insight_not_applied :
  fst (getMeetingNotes env twoMeetings "jane@acmeventures.com"
         (start_dateTime introCall) (summary introCall) emptyWorld)
    = Ok (Some (mkNotes firstRecap "Gmail"))
  /\ fst (analyzeWithAI env twoMeetings firstRecap "Jane" "Gmail" emptyWorld)
     = Ok interestedInsight
  /\ fst (getMeetingNotes env twoMeetings "jane@acmeventures.com"
            (start_dateTime followUp) (summary followUp) emptyWorld)
     = Ok (Some (mkNotes secondRecap "Gmail"))
  /\ fst (analyzeWithAI env twoMeetings secondRecap "Jane" "Gmail" emptyWorld)
     = Ok rejectedInsight
  /\ fst (handler env twoMeetings request emptyWorld)
     = Ok (SyncCompleted 1 2 clock)
  /\ sheet (snd (handler env twoMeetings request emptyWorld))
     = [headerRow;
        ["Jane"; "jane@acmeventures.com"; "Interested"; "Schedule follow-up";
         "Positive"; "2024-05-20T16:00:00Z"; clock]]
  /\ List.length (prompts (snd (handler env twoMeetings request emptyWorld)))
     = 1.
Proof. repeat split; vm_compute; reflexivity. Qed.

(** Jane is stored and sighted: her row is in the sheet after the run,
    with the name and creation time it had. *)
Lemma sighted_contacts_persist_witness :
  exists row,
    In row (tl (sheet (snd (handler env
                              (services [introCall; followUp] OverwriteCells)
                              request (worldWith [janeRow; samRow])))))
    /\ cell 1 row = "jane@acmeventures.com"
    /\ cell 0 row = "Jane Doe"
    /\ cell 6 row = "2024-03-01T08:00:00.000Z".
Proof.
  assert (Hrun : handler env (services [introCall; followUp] OverwriteCells)
                   request (worldWith [janeRow; samRow])
                 = (Ok (SyncCompleted 1 2 clock),
                    snd (handler env
                           (services [introCall; followUp] OverwriteCells)
                           request (worldWith [janeRow; samRow]))))
    by (vm_compute; reflexivity).
  assert (Hsel : In introCall (filter matchesFilter [introCall; followUp]))
    by (vm_compute; left; reflexivity).
  assert (Hskip : shouldSkipEmail env "jane@acmeventures.com" = false)
    by (vm_compute; reflexivity).
  assert (Hfind : find (hasEmail "jane@acmeventures.com")
                    (readContacts env
                       (services [introCall; followUp] OverwriteCells)
                       (worldWith [janeRow; samRow]))
                  = Some janeStored)
    by (vm_compute; reflexivity).
  destruct (sighted_contacts_persist env
              (services [introCall; followUp] OverwriteCells) request
              (worldWith [janeRow; samRow]) _ 1 2 clock [introCall; followUp]
              Hrun eq_refl) as [H _].
  destruct (H introCall "jane@acmeventures.com" Hsel (or_introl eq_refl) Hskip)
    as (row & Hin & He & Hf).
  exists row. split; [exact Hin|]. split; [exact He|].
  exact (Hf janeStored Hfind).
Defined.

(** C5, as stated, fails: a first run over a fresh sheet stores Sam; a
    second run, on whose selected events Sam does not appear, completes
    and his contact is gone, whether the write covers the cells it sends
    or replaces the range. *)
Lemma unsighted_contact_dropped :
  storeEmails
    (sheet (afterRuns env [(services [pitchToHarbor] OverwriteCells, request)]
                      freshWorld))
  = ["sam@harborcap.com"]
  /\ fst (handler env (services [introCall] OverwriteCells) request
                  (afterRuns env
                     [(services [pitchToHarbor] OverwriteCells, request)]
                     freshWorld))
     = Ok (SyncCompleted 1 1 clock)
  /\ storeEmails
       (sheet (afterRuns env
                 [(services [pitchToHarbor] OverwriteCells, request);
                  (services [introCall] OverwriteCells, request)]
                 freshWorld))
     = ["jane@acmeventures.com"]
  /\ storeEmails
       (sheet (afterRuns env [(services [pitchToHarbor] ReplaceRange, request)]
                         freshWorld))
     = ["sam@harborcap.com"]
  /\ fst (handler env (services [introCall] ReplaceRange) request
                  (afterRuns env
                     [(services [pitchToHarbor] ReplaceRange, request)]
                     freshWorld))
     = Ok (SyncCompleted 1 1 clock)
  /\ storeEmails
       (sheet (afterRuns env
                 [(services [pitchToHarbor] ReplaceRange, request);
                  (services [introCall] ReplaceRange, request)]
                 freshWorld))
     = ["jane@acmeventures.com"].
Proof. repeat split; vm_compute; reflexivity. Qed.

(** The contacts write fails: the run reports the failure and the sheet
    and marker are as before.  The write of the sync timestamp fails: the
    run completes, the contact is written and the marker stays empty. *)
Lemma run_fatal_failures_witness :
  handler env writeFails request (worldWith [samRow])
  = (Ok (SyncFailed "The service is currently unavailable." clock),
     worldWith [samRow])
  /\ exists w',
       handler env markerFails request (worldWith [samRow])
       = (Ok (SyncCompleted 1 1 clock), w')
       /\ marker w' = EmptyString
       /\ sheet w'
          = [headerRow; contactRow (freshJane "jane@acmeventures.com")].
Proof.
  assert (Hauth : authorizedPost env request = true)
    by (vm_compute; reflexivity).
  assert (Hrun : mergeLoop env writeFails
                   (readContacts env writeFails (worldWith [samRow]))
                   (filter matchesFilter [introCall]) (worldWith [samRow])
                 = (Ok [("jane@acmeventures.com",
                         freshJane "jane@acmeventures.com")],
                    worldWith [samRow]))
    by (vm_compute; reflexivity).
  assert (Hrun' : mergeLoop env markerFails
                   (readContacts env markerFails (worldWith [samRow]))
                   (filter matchesFilter [introCall]) (worldWith [samRow])
                 = (Ok [("jane@acmeventures.com",
                         freshJane "jane@acmeventures.com")],
                    worldWith [samRow]))
    by (vm_compute; reflexivity).
  split.
  - destruct (run_fatal_failures env writeFails request (worldWith [samRow])
                Hauth) as (_ & _ & H & _ & _).
    destruct (H "The service is currently unavailable." [introCall]
                [("jane@acmeventures.com", freshJane "jane@acmeventures.com")]
                (worldWith [samRow]) eq_refl eq_refl Hrun) as [E _].
    + discriminate.
    + reflexivity.
    + exact E.
  - destruct (run_fatal_failures env markerFails request (worldWith [samRow])
                Hauth) as (_ & _ & _ & _ & H).
    destruct (H "Unable to parse range: Contacts!H1" [introCall]
                [("jane@acmeventures.com", freshJane "jane@acmeventures.com")]
                (worldWith [samRow]) eq_refl eq_refl Hrun'
                (or_intror eq_refl) eq_refl) as (w' & E & Em & Es).
    exists w'. split; [exact E|]. split; [exact Em|].
    rewrite Es. vm_compute. reflexivity.
Defined.

(** C1, as stated, fails: Jane is stored with a meeting on 30 May; the
    store cannot be read, the run goes on from an empty store, completes,
    and writes her row with the start of the intro call of 7 May, earlier
    than the stored value. *)
Lemma read_failure_regresses :
  sheet_get readFails = Throw "Unable to parse range: Contacts!A:G"
  /\ validStarts readFails (filter matchesFilter [introCall]) = true
  /\ validRows readFails (sheet (worldWith [janeLateRow])) = true
  /\ storedRow (sheet (worldWith [janeLateRow])) "jane@acmeventures.com"
     = Some janeLateRow
  /\ fst (handler env readFails request (worldWith [janeLateRow]))
     = Ok (SyncCompleted 1 1 clock)
  /\ sheet (snd (handler env readFails request (worldWith [janeLateRow])))
     = [headerRow; contactRow (freshJane "jane@acmeventures.com")]
  /\ cell 5 janeLateRow = "2024-05-30T10:00:00Z"
  /\ cell 5 (contactRow (freshJane "jane@acmeventures.com"))
     = "2024-05-07T15:00:00Z"
  /\ date_gt (rowTime readFails janeLateRow)
             (rowTime readFails
                      (contactRow (freshJane "jane@acmeventures.com")))
     = true.
Proof. repeat split; vm_compute; reflexivity. Qed.

(** C2, as stated, fails: the calendar owner's address is on the
    exclusion list, a row with it is in the sheet, and the row is still
    there after a run that writes a contact and after a run that finds
    no event. *)
Lemma excluded_row_survives :
  shouldSkipEmail env "jake@viehq.com" = true
  /\ fst (handler env (services [introCall] OverwriteCells) request
                  (worldWith [samRow; ownRow]))
     = Ok (SyncCompleted 1 1 clock)
  /\ sheet (snd (handler env (services [introCall] OverwriteCells) request
                         (worldWith [samRow; ownRow])))
     = [headerRow; contactRow (freshJane "jane@acmeventures.com"); ownRow]
  /\ In "jake@viehq.com"
        (storeEmails
           (sheet (snd (handler env (services [introCall] OverwriteCells)
                                request (worldWith [samRow; ownRow])))))
  /\ (forall mode,
        fst (handler env (services [] mode) request (worldWith [ownRow]))
        = Ok (SyncCompleted 0 0 clock)
        /\ In "jake@viehq.com"
              (storeEmails
                 (sheet (snd (handler env (services [] mode) request
                                      (worldWith [ownRow])))))).
Proof.
  split; [vm_compute; reflexivity|].
  split; [vm_compute; reflexivity|].
  split; [vm_compute; reflexivity|].
  split; [vm_compute; right; left; reflexivity|].
  intros []; (split; [vm_compute; reflexivity | vm_compute; now left]).
Qed.

(** C6, as stated, fails: when the store cannot be read the run does not
    stop; it goes on as if the store were empty, reports success, and
    writes over the rows of the sheet. *)
Lemma read_failure_not_fatal :
  sheet_get readFails = Throw "Unable to parse range: Contacts!A:G"
  /\ getSheetContacts env readFails (worldWith [samRow; janeRow])
     = (Ok [], worldWith [samRow; janeRow])
  /\ fst (handler env readFails request (worldWith [samRow; janeRow]))
     = Ok (SyncCompleted 1 1 clock)
  /\ sheet (snd (handler env readFails request (worldWith [samRow; janeRow])))
     = [headerRow; contactRow (freshJane "jane@acmeventures.com"); janeRow].
Proof. repeat split; vm_compute; reflexivity. Qed.

End Scenarios.
